(** * Feeling-lucky search: rule composition and plan expansion

    A shallow embedding of package [jobutil]'s opportunistic query
    generation ([NewFeelingLuckySearchJob], [applyRulesList], [applyRules]
    and the rule [unquotePatterns]) together with the properties its
    specification states about them.

    Pointers that may be nil ([*query.Basic]) are [option]s, Go's
    [(value, error)] pairs are [result]s, a [panic] is the [Panicked]
    outcome, and the variable [changed] captured and assigned by the closure
    of [unquotePatterns] is threaded explicitly through the tree walk.

    For the determinism of the expansion the same functions are embedded a
    second time with the hidden state of a run (what a called function may
    read and write besides its arguments) passed from call to call.

    The file also embeds package [repos] ([SyncRateLimiters],
    [GrantedScopes] and [hashToken]): the registry of rate limiters and the
    scope cache are states that the functions are given and return, and the
    unbounded loop of [SyncRateLimiters] runs on fuel. Last comes the id
    that the web client's [getCombinedViews] gives an extension insight. *)

From Stdlib Require Import String.
From stdpp Require Import base option list countable gmap.

(** ** Results and panics *)

(** A Go pair [(value, error)]: either the value, with a nil error, or the
    error. *)
Inductive result (A E : Type) : Type :=
| Ok (value : A)
| Err (err : E).
Arguments Ok {A E} value.
Arguments Err {A E} err.

(** A Go call either returns or panics with a message. *)
Inductive outcome (A : Type) : Type :=
| Returned (value : A)
| Panicked (message : string).
Arguments Returned {A} value.
Arguments Panicked {A} message.

Global Instance outcome_bind : MBind outcome := λ A B k m,
  match m with
  | Returned a => k a
  | Panicked msg => Panicked msg
  end.

(** [for _, x := range xs { body }] over a slice, with the loop-carried
    variables in [s]; a panic in the body leaves the loop. *)
Fixpoint forRange {A S} (xs : list A) (body : A → S → outcome S) (s : S)
  : outcome S :=
  match xs with
  | [] => Returned s
  | x :: rest => s' ← body x s ; forRange rest body s'
  end.

(** ** The query node model *)

(** Modelled from the spec: the labels of package [query] are declared
    outside the sources at hand. The spec names [Quoted], [Literal] and
    [Regexp] as examples of the labels of a pattern; [OtherLabel] stands for
    every further one. *)
Inductive label : Type :=
| Literal
| Regexp
| Quoted
| OtherLabel (tag : nat).

Global Instance label_eq_dec : EqDecision label.
Proof. solve_decision. Defined.

Definition label_encode (l : label) : nat :=
  match l with
  | Literal => 0
  | Regexp => 1
  | Quoted => 2
  | OtherLabel tag => 3 + tag
  end.

Definition label_decode (n : nat) : label :=
  match n with
  | 0 => Literal
  | 1 => Regexp
  | 2 => Quoted
  | S (S (S tag)) => OtherLabel tag
  end.

Global Instance label_countable : Countable label.
Proof.
  apply (inj_countable' label_encode label_decode).
  by intros [].
Defined.

(** Modelled from the spec: the label set of an annotation and its methods
    [IsSet], [Set] and [Unset] are declared in package [query], outside the
    sources at hand. The spec describes an annotation as a set of labels
    that are set, tested and cleared one at a time. ([Set] is a reserved
    word, hence the prefix.) *)
Abbreviation labels := (gset label).

Definition labels_IsSet (l : labels) (lbl : label) : bool := bool_decide (lbl ∈ l).
Definition labels_Set (l : labels) (lbl : label) : labels := l ∪ {[lbl]}.
Definition labels_Unset (l : labels) (lbl : label) : labels := l ∖ {[lbl]}.

(** The annotation of a node; the code reads and writes its [Labels]. *)
Record Annotation : Type := { Labels : labels }.

(** Modelled from the spec: the kinds of operator, "and/or". *)
Inductive operatorKind : Type :=
| KindAnd
| KindOr.

(** Modelled from the spec: the node type is declared in package [query],
    outside the sources at hand. A tree of tagged variants: a pattern leaf
    (value string, negated flag, annotation), an operator over an ordered
    sequence of nodes, and a key/value parameter ([Parameter] is a reserved word, hence
    [Param]). *)
#[local] Unset Elimination Schemes.
Inductive Node : Type :=
| Pattern (Value : string) (Negated : bool) (annotation : Annotation)
| Operator (Kind : operatorKind) (Operands : list Node)
| Param (Field Value : string).
#[local] Set Elimination Schemes.

(** Map a state-passing function over a slice from left to right. *)
Definition mapAccum {A B S} (f : A → S → B * S) : list A → S → list B * S :=
  fix go (xs : list A) (s : S) : list B * S :=
    match xs with
    | [] => ([], s)
    | x :: rest =>
      let '(y, s1) := f x s in
      let '(ys, s2) := go rest s1 in
      (y :: ys, s2)
    end.

(** Modelled from the spec: [query.MapPattern] is declared outside the
    sources at hand. It walks every pattern node of the tree, in order, and
    builds a new tree in which each pattern node is replaced by what the
    callback returns for its value, negated flag and annotation; nothing
    else is changed. The callback is a closure: [S] is the state it captures
    and may assign. *)
Fixpoint mapPatternNode {S} (callback : string → bool → Annotation → S → Node * S)
    (node : Node) (s : S) : Node * S :=
  match node with
  | Pattern value negated annotation => callback value negated annotation s
  | Operator kind operands =>
    let '(operands', s') := mapAccum (mapPatternNode callback) operands s in
    (Operator kind operands', s')
  | Param field value => (Param field value, s)
  end.

Definition MapPattern {S} (nodes : list Node)
    (callback : string → bool → Annotation → S → Node * S) (s : S)
  : list Node * S :=
  mapAccum (mapPatternNode callback) nodes s.

(** The two search types the code passes to the parser. *)
Inductive SearchType : Type :=
| SearchTypeRegex
| SearchTypeLiteralDefault.

(** ** The collaborating packages *)

(** What the code calls in package [query], over [query.Basic], Go's
    [error] and the steps that [query.For] hands to [query.Sequence]:
    [Basic.ToParseTree], [StringHuman], [Parse], [For], [Sequence] and
    [ToBasicQuery]. *)
Class QueryPackage (Basic error step : Type) : Type := {
  ToParseTree : Basic → list Node;
  StringHuman : list Node → string;
  Parse : string → SearchType → result (list Node) error;
  For : SearchType → step;
  Sequence : list step → list Node → result (list Node) error;
  ToBasicQuery : list Node → result Basic error;
}.

(** The two job constructors of package [jobutil] that the code calls, over
    [run.SearchInputs] and [job.Job]. *)
Class JobPackage (SearchInputs Basic Job error : Type) : Type := {
  NewBasicJob : SearchInputs → Basic → result Job error;
  NewSequentialJob : bool → list Job → Job;
}.

(** ** The rule composer, the unquote rule and the plan expander *)

(** [type rule func(query.Basic) *query.Basic]; nil is [None]. *)
Definition rule (Basic : Type) : Type := Basic → option Basic.

(** The function literal that [unquotePatterns] passes to
    [query.MapPattern]; [changed] is the variable it captures. *)
Definition unquoteCallback (value : string) (negated : bool)
    (annotation : Annotation) (changed : bool) : Node * bool :=
  if labels_IsSet (Labels annotation) Quoted then
    let changed := true in
    let annotation := {| Labels := labels_Unset (Labels annotation) Quoted |} in
    let annotation := {| Labels := labels_Set (Labels annotation) Literal |} in
    (Pattern value negated annotation, changed)
  else
    (Pattern value negated annotation, changed).

Section FeelingLucky.

Context {Basic SearchInputs Job error step : Type}.
Context `{!QueryPackage Basic error step}.
Context `{!JobPackage SearchInputs Basic Job error}.

(** [applyRules] applies every rule in sequence to [b]. If any rule does
    not apply, it returns nil. *)
Fixpoint applyRules (b : Basic) (rules : list (rule Basic)) : option Basic :=
  match rules with
  | [] => Some b
  | rule0 :: rest =>
    match rule0 b with
    | Some next => applyRules next rest
    | None => None
    end
  end.

(** [applyRulesList]: one possible production per inner list of rules. *)
Definition applyRulesList (b : Basic) (rulesList : list (list (rule Basic)))
  : list Basic :=
  fold_left
    (λ bs l,
       match applyRules b l with
       | Some generated => bs ++ [generated]
       | None => bs
       end)
    rulesList [].

(** [unquotePatterns] is a rule that unquotes all patterns in the input
    query. *)
Definition unquotePatterns : rule Basic := λ b,
  match Parse (StringHuman (ToParseTree b)) SearchTypeRegex with
  | Err _ => None
  | Ok rawParseTree =>
    let changed := false in
    let '(newParseTree, changed) := MapPattern rawParseTree unquoteCallback changed in
    if negb changed then None
    else
      match Sequence [For SearchTypeLiteralDefault] newParseTree with
      | Err _ => None
      | Ok newNodes =>
        match ToBasicQuery newNodes with
        | Err _ => None
        | Ok newBasic => Some newBasic
        end
      end
  end.

(** [var rulesList = [][]rule{ []rule{unquotePatterns} }] *)
Definition rulesList : list (list (rule Basic)) := [ [unquotePatterns] ].

(** [NewFeelingLuckySearchJob]: the basic queries of the plan first, the
    generated queries afterwards. *)
Definition NewFeelingLuckySearchJob (inputs : SearchInputs) (plan : list Basic)
  : outcome Job :=
  let children : list Job := [] in
  children ← forRange plan (λ b children,
      match NewBasicJob inputs b with
      | Err _ => Panicked "TODO"%string
      | Ok child => Returned (children ++ [child])
      end) children ;
  children ← forRange plan (λ b children,
      forRange (applyRulesList b rulesList) (λ newBasic children,
        match NewBasicJob inputs newBasic with
        | Err _ => Panicked "generated an invalid basic query D:"%string
        | Ok child => Returned (children ++ [child])
        end) children) children ;
  Returned (NewSequentialJob true children).

End FeelingLucky.

(** ** Observations on trees, rules and packages *)

(** The pattern nodes of a tree, from left to right: value, negated flag
    and annotation of each. *)
Fixpoint patterns (node : Node) : list (string * bool * Annotation) :=
  match node with
  | Pattern value negated annotation => [(value, negated, annotation)]
  | Operator _ operands => flat_map patterns operands
  | Param _ _ => []
  end.

Definition treePatterns (nodes : list Node) : list (string * bool * Annotation) :=
  flat_map patterns nodes.

(** What is left of a tree once the labels of its patterns are blanked. *)
Fixpoint skeleton (node : Node) : Node :=
  match node with
  | Pattern value negated _ => Pattern value negated {| Labels := ∅ |}
  | Operator kind operands => Operator kind (map skeleton operands)
  | Param field value => Param field value
  end.

(** A pattern is labelled "quoted". *)
Definition isQuoted (p : string * bool * Annotation) : bool :=
  labels_IsSet (Labels p.2) Quoted.

(** The number of patterns of a tree that are labelled "quoted". *)
Definition countQuoted (nodes : list Node) : nat :=
  length (List.filter isQuoted (treePatterns nodes)).

(** A pattern before and after the unquote pass: same value and negated
    flag; a quoted pattern loses [Quoted], gains [Literal] and keeps every
    other label as it was; any other pattern is the same. *)
Definition unquoted (p p' : string * bool * Annotation) : Prop :=
  p'.1.1 = p.1.1 ∧ p'.1.2 = p.1.2 ∧
  if isQuoted p then
    labels_IsSet (Labels p'.2) Quoted = false ∧
    labels_IsSet (Labels p'.2) Literal = true ∧
    ∀ lbl, lbl ≠ Quoted → lbl ≠ Literal →
      labels_IsSet (Labels p'.2) lbl = labels_IsSet (Labels p.2) lbl
  else p' = p.

(** What the walk with the callback of [unquotePatterns] does to one
    node, entered with [changed]. *)
Definition walk_node_ok (node : Node) : Prop :=
  ∀ changed, ∃ node',
    mapPatternNode unquoteCallback node changed
    = (node', changed || existsb isQuoted (patterns node)) ∧
    Forall2 unquoted (patterns node) (patterns node') ∧
    skeleton node' = skeleton node ∧
    (existsb isQuoted (patterns node) = false → node' = node).

(** Induction on trees, with the hypothesis for every operand of an
    operator. *)
Fixpoint Node_forall_ind (P : Node → Prop)
    (Hpattern : ∀ value negated annotation, P (Pattern value negated annotation))
    (Hoperator : ∀ kind operands, Forall P operands → P (Operator kind operands))
    (Hparam : ∀ field value, P (Param field value))
    (node : Node) : P node :=
  match node with
  | Pattern value negated annotation => Hpattern value negated annotation
  | Operator kind operands =>
    Hoperator kind operands
      ((fix all (nodes : list Node) : Forall P nodes :=
          match nodes with
          | [] => @List.Forall_nil Node P
          | n :: rest =>
            @List.Forall_cons Node P n rest
              (Node_forall_ind P Hpattern Hoperator Hparam n) (all rest)
          end) operands)
  | Param field value => Hparam field value
  end.

(** ** Observations on the rule and on the expander *)

Section Observations.

Context {Basic SearchInputs Job error step : Type}.
Context `{!QueryPackage Basic error step}.
Context `{!JobPackage SearchInputs Basic Job error}.

(** One of the three fallible steps of [unquotePatterns] fails on [b]: the
    re-parse, the re-sequencing of the rewritten tree, or the flattening
    of the re-sequenced nodes. *)
Inductive stepFails (b : Basic) : Prop :=
| parseFails e :
    Parse (StringHuman (ToParseTree b)) SearchTypeRegex = Err e →
    stepFails b
| sequenceFails tree e :
    Parse (StringHuman (ToParseTree b)) SearchTypeRegex = Ok tree →
    Sequence [For SearchTypeLiteralDefault]
      (MapPattern tree unquoteCallback false).1 = Err e →
    stepFails b
| toBasicQueryFails tree newNodes e :
    Parse (StringHuman (ToParseTree b)) SearchTypeRegex = Ok tree →
    Sequence [For SearchTypeLiteralDefault]
      (MapPattern tree unquoteCallback false).1 = Ok newNodes →
    ToBasicQuery newNodes = Err e →
    stepFails b.

(** The body of the loops of [NewFeelingLuckySearchJob]: make the job of
    one query and append it to [children], or panic with [message]. *)
Definition appendJob (message : string) (inputs : SearchInputs)
    (b : Basic) (children : list Job) : outcome (list Job) :=
  match NewBasicJob inputs b with
  | Err _ => Panicked message
  | Ok child => Returned (children ++ [child])
  end.

(** [child] is the job that [NewBasicJob] makes of [b]. *)
Definition unitOf (inputs : SearchInputs) (b : Basic) (child : Job) : Prop :=
  NewBasicJob inputs b = Ok child.

(** The queries that the rules generate from a plan: query by query in plan
    order, chain by chain in the order of [rulesList]. *)
Definition generatedQueries (plan : list Basic) : list Basic :=
  flat_map (λ b, applyRulesList b rulesList) plan.

End Observations.

(** ** Runs with a hidden state

    A Go function value may read and write what is not among its
    arguments: package-level variables, the seed that orders the iteration
    of a map, the random source, the clock. [W] is that hidden state. A rule
    and a job constructor are here functions of it as well and return the
    next one, and the rule composer and the plan expander pass it from each
    call to the next in the order in which the code makes the calls. The
    rule list, a package-level variable that the code only reads, is an
    argument of the expander. *)

(** [type rule func(query.Basic) *query.Basic], with the hidden state. *)
Definition ruleW (W Basic : Type) : Type := Basic → W → option Basic * W.

(** [NewBasicJob] and [NewSequentialJob], with the hidden state. *)
Class JobPackageW (W SearchInputs Basic Job error : Type) : Type := {
  NewBasicJobW : SearchInputs → Basic → W → result Job error * W;
  NewSequentialJobW : bool → list Job → W → Job * W;
}.

(** What a run returns, without the hidden state it ends in. *)
Definition valueOf {W A} (m : outcome (A * W)) : outcome A :=
  match m with
  | Returned (a, _) => Returned a
  | Panicked message => Panicked message
  end.

(** [for _, x := range xs { body }] over a slice, with the hidden state. *)
Fixpoint forRangeW {W A S} (xs : list A) (body : A → S → W → outcome (S * W))
    (s : S) (w : W) : outcome (S * W) :=
  match xs with
  | [] => Returned (s, w)
  | x :: rest =>
    match body x s w with
    | Returned (s', w') => forRangeW rest body s' w'
    | Panicked message => Panicked message
    end
  end.

(** A rule, or a pair of job constructors, that has no state: what it
    returns does not depend on the hidden state. *)
Definition statelessRule {W Basic} (r : ruleW W Basic) : Prop :=
  ∀ b w w', (r b w).1 = (r b w').1.


(** A rule and job constructors of the embedding without hidden state, as
    ones that leave the hidden state alone. *)
Definition liftRule {W Basic} (r : rule Basic) : ruleW W Basic :=
  λ b w, (r b, w).

Definition liftJobs {W SearchInputs Basic Job error}
    (J : JobPackage SearchInputs Basic Job error)
  : JobPackageW W SearchInputs Basic Job error := {|
  NewBasicJobW inputs b w := (@NewBasicJob _ _ _ _ J inputs b, w);
  NewSequentialJobW flag children w := (@NewSequentialJob _ _ _ _ J flag children, w);
|}.

Definition liftOutcome {W A} (m : outcome A) (w : W) : outcome (A * W) :=
  match m with
  | Returned a => Returned (a, w)
  | Panicked message => Panicked message
  end.

Section HiddenState.

Context {W Basic SearchInputs Job error : Type}.
Context `{!JobPackageW W SearchInputs Basic Job error}.

(** [applyRules], with the hidden state. *)
Fixpoint applyRulesW (b : Basic) (rules : list (ruleW W Basic)) (w : W)
  : option Basic * W :=
  match rules with
  | [] => (Some b, w)
  | rule0 :: rest =>
    let '(next, w) := rule0 b w in
    match next with
    | Some next => applyRulesW next rest w
    | None => (None, w)
    end
  end.

(** [applyRulesList], with the hidden state. *)
Definition applyRulesListW (b : Basic) (rulesList : list (list (ruleW W Basic)))
    (w : W) : list Basic * W :=
  fold_left
    (λ '(bs, w) l,
       let '(generated, w) := applyRulesW b l w in
       match generated with
       | Some generated => (bs ++ [generated], w)
       | None => (bs, w)
       end)
    rulesList ([], w).

(** [NewFeelingLuckySearchJob], with the hidden state. *)
Definition NewFeelingLuckySearchJobW (rulesList : list (list (ruleW W Basic)))
    (inputs : SearchInputs) (plan : list Basic) (w : W) : outcome (Job * W) :=
  let children : list Job := [] in
  match
    forRangeW plan (λ b children w,
        let '(made, w) := NewBasicJobW inputs b w in
        match made with
        | Err _ => Panicked "TODO"%string
        | Ok child => Returned (children ++ [child], w)
        end) children w
  with
  | Panicked message => Panicked message
  | Returned (children, w) =>
    match
      forRangeW plan (λ b children w,
          let '(generated, w) := applyRulesListW b rulesList w in
          forRangeW generated (λ newBasic children w,
            let '(made, w) := NewBasicJobW inputs newBasic w in
            match made with
            | Err _ => Panicked "generated an invalid basic query D:"%string
            | Ok child => Returned (children ++ [child], w)
            end) children w) children w
    with
    | Panicked message => Panicked message
    | Returned (children, w) =>
      let '(job, w) := NewSequentialJobW true children w in
      Returned (job, w)
    end
  end.

End HiddenState.

(** ** A small instance of the collaborating packages

    A query is its text; it parses to one pattern, labelled "quoted" when
    the text opens with a quotation mark. Sequencing refuses the pattern
    [seq], flattening refuses the pattern [flat], and no job can be made of
    the query [bad]. *)

Definition quoteChar : Ascii.ascii := Ascii.ascii_of_nat 34.

Definition inQuotes (s : string) : string :=
  String quoteChar (s ++ String quoteChar EmptyString)%string.

Fixpoint untilQuote (s : string) : string :=
  match s with
  | EmptyString => EmptyString
  | String c rest =>
    if Ascii.eqb c quoteChar then EmptyString else String c (untilQuote rest)
  end.

Definition sampleParse (text : string) (t : SearchType) : result (list Node) string :=
  match text with
  | EmptyString => Err "empty query"%string
  | String c rest =>
    if Ascii.eqb c quoteChar
    then Ok [Pattern (untilQuote rest) false {| Labels := {[Quoted]} |}]
    else Ok [Pattern text false {| Labels := {[Regexp]} |}]
  end.

Definition sampleValue (nodes : list Node) : option string :=
  match nodes with
  | [Pattern value _ _] => Some value
  | _ => None
  end.

Definition sampleQuery : QueryPackage string string SearchType := {|
  ToParseTree b := [Pattern b false {| Labels := ∅ |}];
  StringHuman nodes := default EmptyString (sampleValue nodes);
  Parse := sampleParse;
  For t := t;
  Sequence steps nodes :=
    if bool_decide (sampleValue nodes = Some "seq"%string)
    then Err "cannot sequence"%string else Ok nodes;
  ToBasicQuery nodes :=
    match sampleValue nodes with
    | Some value =>
      if bool_decide (value = "flat"%string)
      then Err "cannot flatten"%string else Ok value
    | None => Err "not a single pattern"%string
    end;
|}.

#[local] Unset Elimination Schemes.
Inductive sampleJob : Type :=
| BasicJob (inputs : nat) (b : string)
| SequentialJob (flag : bool) (children : list sampleJob).
#[local] Set Elimination Schemes.

Definition sampleJobs : JobPackage nat string sampleJob string := {|
  NewBasicJob inputs b :=
    if bool_decide (b = "bad"%string)
    then Err "cannot build"%string else Ok (BasicJob inputs b);
  NewSequentialJob := SequentialJob;
|}.

Definition sampleUnquote : rule string := @unquotePatterns _ _ _ sampleQuery.

Definition sampleExpand (inputs : nat) (plan : list string) : outcome sampleJob :=
  @NewFeelingLuckySearchJob _ _ _ _ _ sampleQuery sampleJobs inputs plan.

(** The sample rule and job constructors with a clock as hidden state: every
    call advances it and none looks at it. *)
Definition sampleUnquoteW : ruleW nat string :=
  λ b clock, (sampleUnquote b, S clock).

Definition sampleJobsW : JobPackageW nat nat string sampleJob string := {|
  NewBasicJobW inputs b clock := (@NewBasicJob _ _ _ _ sampleJobs inputs b, clock + 2);
  NewSequentialJobW flag children clock := (SequentialJob flag children, clock + 3);
|}.

(** For contrast, and not what the code does: the chain set kept in a map,
    which a loop visits in an order that the hidden state decides. *)
Definition applyRulesListOverMap (b : string)
    (rulesList : list (list (ruleW nat string))) (seed : nat) : list string * nat :=
  applyRulesListW b (if Nat.even seed then rulesList else reverse rulesList) seed.

(** * Package [repos]: rate-limit syncing and granted scopes *)

(** ** What the code uses of Go's standard library *)

(** The bytes of a Go string, [[]byte(s)], each as a number below 256. *)
Definition bytesOf (s : string) : list Z :=
  map (λ c, Z.of_N (Ascii.N_of_ascii c)) (list_ascii_of_string s).

(** [uint32] and [int] (64 bits) arithmetic wraps around; [byte(v)] keeps the
    low eight bits. *)
Definition wrap32 (z : Z) : Z := z mod 2 ^ 32.
Definition wrap64 (z : Z) : Z := (z + 2 ^ 63) mod 2 ^ 64 - 2 ^ 63.
Definition byteOf (v : Z) : Z := Z.land v 255.

(** [hash/fnv]: [New32] starts the 32-bit FNV-1 hash at its offset basis;
    [Write] multiplies by the prime and then xors each byte in, and never
    returns an error; [Sum] appends the four bytes of the hash, the most
    significant first. *)
Definition offset32 : Z := 2166136261.
Definition prime32 : Z := 16777619.

Definition fnv_New32 : Z := offset32.

Definition sum32_Write {error} (hash : Z) (data : list Z) : Z * option error :=
  (fold_left (λ hash c, Z.lxor (wrap32 (hash * prime32)) c) data hash, None).

Definition sum32_Sum (hash : Z) (b : list Z) : list Z :=
  b ++ [byteOf (Z.shiftr hash 24); byteOf (Z.shiftr hash 16);
        byteOf (Z.shiftr hash 8); byteOf hash].

(** [encoding/hex]: [EncodeToString] writes each byte as two digits of
    [hextable], the high four bits first. A byte indexes within the table. *)
Definition hextable : string := "0123456789abcdef".

Definition hexDigit (i : Z) : Ascii.ascii :=
  nth (Z.to_nat i) (list_ascii_of_string hextable) Ascii.zero.

(** A character is one of the digits of [hextable]. *)
Definition isHexDigit (c : Ascii.ascii) : Prop :=
  In c (list_ascii_of_string hextable).

Fixpoint hex_EncodeToString (src : list Z) : string :=
  match src with
  | [] => EmptyString
  | v :: rest =>
    String (hexDigit (Z.shiftr v 4))
      (String (hexDigit (Z.land v 15)) (hex_EncodeToString rest))
  end.

(** [strings.Split] and [strings.Join], for a separator of one character
    (the code passes [","]): [Split] cuts at every separator and returns at
    least one piece; [Join] puts the separator between the elements. *)
Fixpoint strings_Split (s : string) (sep : Ascii.ascii) : list string :=
  match s with
  | EmptyString => [EmptyString]
  | String c rest =>
    if Ascii.eqb c sep then EmptyString :: strings_Split rest sep
    else
      match strings_Split rest sep with
      | [] => [String c EmptyString]
      | piece :: pieces => String c piece :: pieces
      end
  end.

Fixpoint strings_Join (elems : list string) (sep : Ascii.ascii) : string :=
  match elems with
  | [] => EmptyString
  | [e] => e
  | e :: rest => (e ++ String sep (strings_Join rest sep))%string
  end.

Definition comma : Ascii.ascii := Ascii.ascii_of_nat 44.

(** ** The collaborators of package [repos] *)

(** [*GithubSource] and [*GitLabSource], as far as the code reads them:
    [config.Token], [config.TokenType] and the API client. *)
Record GithubSource (GithubClient : Type) : Type := {
  github_Token : string;
  v3Client : GithubClient;
}.
Arguments github_Token {GithubClient} _.
Arguments v3Client {GithubClient} _.

Record GitLabSource (GitLabClient : Type) : Type := {
  gitlab_Token : string;
  gitlab_TokenType : string;
  client : GitLabClient;
}.
Arguments gitlab_Token {GitLabClient} _.
Arguments gitlab_TokenType {GitLabClient} _.
Arguments client {GitLabClient} _.

(** The dynamic type of a [Source], as the type switch of [GrantedScopes]
    tells it apart; [typeName] is what [%T] prints of any other source. *)
Inductive Source (GithubClient GitLabClient : Type) : Type :=
| IsGithubSource (v : GithubSource GithubClient)
| IsGitLabSource (v : GitLabSource GitLabClient)
| OtherSource (typeName : string).
Arguments IsGithubSource {GithubClient GitLabClient} v.
Arguments IsGitLabSource {GithubClient GitLabClient} v.
Arguments OtherSource {GithubClient GitLabClient} typeName.

(** What the code calls outside the file: package [errors] ([New], [Wrap],
    [Errorf] with one [%T] argument, and [HasType] against
    [extsvc.ErrRateLimitUnsupported]), the fields and methods of
    [types.ExternalService], [extsvc.ExtractRateLimit] and the two kinds,
    [db.ExternalServices], the source constructors and the two API calls
    that ask the code host for the scopes. *)
Class ReposPackage
    (error ExternalService Limit DB Store GithubClient GitLabClient : Type)
  : Type := {
  errors_New : string → error;
  errors_Wrap : error → string → error;
  errors_Errorf : string → string → error;
  isRateLimitUnsupported : error → bool;
  svc_Config : ExternalService → string;
  svc_Kind : ExternalService → string;
  svc_URN : ExternalService → string;
  svc_IsSiteOwned : ExternalService → bool;
  ExtractRateLimit : string → string → result Limit error;
  KindGitHub : string;
  KindGitLab : string;
  ExternalServices : DB → Store;
  NewSource : DB → ExternalService → result (Source GithubClient GitLabClient) error;
  NewGithubSource : Store → ExternalService → result (GithubSource GithubClient) error;
  NewGitLabSource : ExternalService → result (GitLabSource GitLabClient) error;
  GetAuthenticatedOAuthScopes : GithubClient → result (list string) error;
  GetAuthenticatedUserOAuthScopes : GitLabClient → result (list string) error;
}.

(** [type ScopeCache interface { Get(string) ([]byte, bool); Set(string, []byte) }]
    over the states [C] of a cache: [Get] reads, with [None] for a false
    second result, and [Set] gives the next state. *)
Class ScopeCache (C : Type) : Type := {
  cache_Get : C → string → option string;
  cache_Set : C → string → string → C;
}.

(** [type RateLimitSyncer struct]: the lister, called with the IDs, the
    limit and the offset of the cursor, and the number of services to fetch
    in each call. The registry it points to is the state that
    [SyncRateLimiters] is given and returns. *)
Record RateLimitSyncer (error ExternalService : Type) : Type := {
  serviceLister : list Z → Z → Z → result (list ExternalService) error;
  limit : Z;
}.
Arguments serviceLister {error ExternalService} _.
Arguments limit {error ExternalService} _.

(** The registry, as this file uses it: the calls [Get(urn).SetLimit(limit)]
    made on it so far, in order. *)
Definition Registry (Limit : Type) : Type := list (string * Limit).

Section Repos.

Context {error ExternalService Limit DB Store GithubClient GitLabClient : Type}.
Context `{!ReposPackage error ExternalService Limit DB Store GithubClient GitLabClient}.
Context {C : Type} `{!ScopeCache C}.

(** [NewRateLimitSyncer] returns a new syncer. *)
Definition NewRateLimitSyncer
    (lister : list Z → Z → Z → result (list ExternalService) error)
  : RateLimitSyncer error ExternalService :=
  {| serviceLister := lister; limit := 500 |}.

(** The inner loop of [SyncRateLimiters], over the services of one call of
    the lister: the error it returns with, if any, and the registry. *)
Fixpoint syncServices (services : list ExternalService) (registry : Registry Limit)
  : option error * Registry Limit :=
  match services with
  | [] => (None, registry)
  | svc :: rest =>
    match ExtractRateLimit (svc_Config svc) (svc_Kind svc) with
    | Err err =>
      if isRateLimitUnsupported err then syncServices rest registry
      else (Some (errors_Wrap err "getting rate limit configuration"), registry)
    | Ok limit => syncServices rest (registry ++ [(svc_URN svc, limit)])
    end
  end.

(** The outer loop of [SyncRateLimiters], [for { ... }], entered with the
    offset of the cursor; [None] when [fuel] iterations do not reach its
    end. *)
Fixpoint syncLoop (fuel : nat) (r : RateLimitSyncer error ExternalService)
    (ids : list Z) (offset : Z) (registry : Registry Limit)
  : option (option error * Registry Limit) :=
  match fuel with
  | O => None
  | S fuel =>
    match serviceLister r ids (limit r) offset with
    | Err err => Some (Some (errors_Wrap err "listing external services"), registry)
    | Ok services =>
      if (Z.of_nat (length services) =? 0)%Z then Some (None, registry)
      else
        let offset := wrap64 (offset + Z.of_nat (length services)) in
        match syncServices services registry with
        | (Some err, registry) => Some (Some err, registry)
        | (None, registry) =>
          if (Z.of_nat (length services) <? limit r)%Z then Some (None, registry)
          else syncLoop fuel r ids offset registry
        end
    end
  end.

(** [SyncRateLimiters] syncs rate limiters for external services. *)
Definition SyncRateLimiters (fuel : nat) (r : RateLimitSyncer error ExternalService)
    (ids : list Z) (registry : Registry Limit)
  : option (option error * Registry Limit) :=
  syncLoop fuel r ids 0 registry.

(** [hashToken]: the FNV-1 hash of the token, in hexadecimal. *)
Definition hashToken (token : string) : result string error :=
  let h := fnv_New32 in
  let '(h, err) := sum32_Write h (bytesOf token) in
  match err with
  | Some err => Err (errors_Wrap err "hashing token")
  | None =>
    let b := sum32_Sum h [] in
    Ok (hex_EncodeToString b)
  end.

(** [cache.Get(key)] with [ok && len(result) > 0]. *)
Definition cachedScopes (cache : C) (key : string) : option string :=
  match cache_Get cache key with
  | Some cached => if (0 <? String.length cached)%nat then Some cached else None
  | None => None
  end.

(** [GrantedScopes] returns the scopes granted by the service based on the
    token of its configuration; the nil slice is the empty list. *)
Definition GrantedScopes (cache : C) (db : DB) (svc : ExternalService)
  : result (list string) error * C :=
  let externalServicesStore := ExternalServices db in
  if svc_IsSiteOwned svc
     || (negb (String.eqb (svc_Kind svc) KindGitHub)
         && negb (String.eqb (svc_Kind svc) KindGitLab))
  then (Ok [], cache)
  else
    match NewSource db svc with
    | Err err => (Err (errors_Wrap err "creating source"), cache)
    | Ok src =>
      match src with
      | IsGithubSource v =>
        let token := github_Token v in
        if String.eqb token "" then (Err (errors_New "missing token"), cache)
        else
          match hashToken token with
          | Err err => (Err err, cache)
          | Ok key =>
            match cachedScopes cache key with
            | Some cached => (Ok (strings_Split cached comma), cache)
            | None =>
              match NewGithubSource externalServicesStore svc with
              | Err err => (Err (errors_Wrap err "creating source"), cache)
              | Ok src =>
                match GetAuthenticatedOAuthScopes (v3Client src) with
                | Err err => (Err (errors_Wrap err "getting scopes"), cache)
                | Ok scopes =>
                  (Ok scopes, cache_Set cache key (strings_Join scopes comma))
                end
              end
            end
          end
      | IsGitLabSource v =>
        let token := gitlab_Token v in
        if negb (String.eqb (gitlab_TokenType v) "oauth")
        then (Err (errors_New "not an oauth token"), cache)
        else if String.eqb token "" then (Err (errors_New "missing token"), cache)
        else
          match hashToken token with
          | Err err => (Err err, cache)
          | Ok key =>
            match cachedScopes cache key with
            | Some cached => (Ok (strings_Split cached comma), cache)
            | None =>
              match NewGitLabSource svc with
              | Err err => (Err (errors_Wrap err "creating source"), cache)
              | Ok src =>
                match GetAuthenticatedUserOAuthScopes (client src) with
                | Err err => (Err (errors_Wrap err "getting scopes"), cache)
                | Ok scopes =>
                  (Ok scopes, cache_Set cache key (strings_Join scopes comma))
                end
              end
            end
          end
      | OtherSource typeName =>
        (Err (errors_Errorf "unsupported config type: %T" typeName), cache)
      end
    end.

End Repos.

(** ** Observations on package [repos] *)

Section ReposObservations.

Context {error ExternalService Limit DB Store GithubClient GitLabClient : Type}.
Context `{!ReposPackage error ExternalService Limit DB Store GithubClient GitLabClient}.

(** The lister of [r] serves the table [all] page by page: asked with the
    limit of [r] and an offset, it returns the services from that offset
    on, at most as many as the limit. *)
Definition servesPages (r : RateLimitSyncer error ExternalService) (ids : list Z)
    (all : list ExternalService) : Prop :=
  ∀ offset, (0 ≤ offset)%Z →
    serviceLister r ids (limit r) offset
    = Ok (take (Z.to_nat (limit r)) (drop (Z.to_nat offset) all)).

(** What one service adds to the registry: its URN with its rate limit, if
    [ExtractRateLimit] gives one. *)
Definition limitOf (svc : ExternalService) : option (string * Limit) :=
  match ExtractRateLimit (svc_Config svc) (svc_Kind svc) with
  | Ok limit => Some (svc_URN svc, limit)
  | Err _ => None
  end.

(** [ExtractRateLimit] gives the service a rate limit or reports that its
    kind has none. *)
Definition limitedOrUnsupported (svc : ExternalService) : Prop :=
  ∀ err, ExtractRateLimit (svc_Config svc) (svc_Kind svc) = Err err →
         isRateLimitUnsupported err = true.

(** [GrantedScopes] looks at the service: it is not site-owned and its kind
    is GitHub or GitLab. *)
Definition usesToken (svc : ExternalService) : Prop :=
  svc_IsSiteOwned svc = false ∧
  (svc_Kind svc = KindGitHub ∨ svc_Kind svc = KindGitLab).

(** The token that [GrantedScopes] hashes for a service: the non-empty
    token of its GitHub source, or of its GitLab source when the token type
    is [oauth]. *)
Inductive tokenOf (db : DB) (svc : ExternalService) (token : string) : Prop :=
| tokenOfGithub v :
    usesToken svc →
    NewSource db svc = Ok (IsGithubSource v) →
    github_Token v = token →
    token ≠ EmptyString →
    tokenOf db svc token
| tokenOfGitLab v :
    usesToken svc →
    NewSource db svc = Ok (IsGitLabSource v) →
    gitlab_TokenType v = "oauth"%string →
    gitlab_Token v = token →
    token ≠ EmptyString →
    tokenOf db svc token.

(** The code host, asked on the slow path of [GrantedScopes], answers with
    [scopes]. *)
Inductive fetched (db : DB) (svc : ExternalService) (scopes : list string) : Prop :=
| fetchedGithub v src :
    NewSource db svc = Ok (IsGithubSource v) →
    NewGithubSource (ExternalServices db) svc = Ok src →
    GetAuthenticatedOAuthScopes (v3Client src) = Ok scopes →
    fetched db svc scopes
| fetchedGitLab v src :
    NewSource db svc = Ok (IsGitLabSource v) →
    NewGitLabSource svc = Ok src →
    GetAuthenticatedUserOAuthScopes (client src) = Ok scopes →
    fetched db svc scopes.

End ReposObservations.

(** No character of [s] is the separator. *)
Definition freeOf (sep : Ascii.ascii) (s : string) : Prop :=
  ¬ In sep (list_ascii_of_string s).

(** ** A small instance of package [repos]

    A service carries its kind, its token, the scopes that the code host
    grants it and its configuration; the rate limit of a configuration is
    its length, the configuration [none] has no rate limit and the
    configuration [broken] cannot be read. The cache is a finite map. *)

Record sampleService : Type := {
  sampleKind : string;
  sampleToken : string;
  sampleGranted : list string;
  sampleConfig : string;
}.

Definition sampleRepos
  : ReposPackage string sampleService Z unit unit (list string) (list string) := {|
  errors_New msg := msg;
  errors_Wrap err msg := (msg ++ ": " ++ err)%string;
  errors_Errorf format typeName := (format ++ typeName)%string;
  isRateLimitUnsupported err := bool_decide (err = "unsupported"%string);
  svc_Config := sampleConfig;
  svc_Kind := sampleKind;
  svc_URN svc := ("urn:" ++ sampleConfig svc)%string;
  svc_IsSiteOwned svc := bool_decide (sampleToken svc = "site"%string);
  ExtractRateLimit config kind :=
    if bool_decide (config = "none"%string) then Err "unsupported"%string
    else if bool_decide (config = "broken"%string) then Err "unreadable"%string
    else Ok (Z.of_nat (String.length config));
  KindGitHub := "GITHUB";
  KindGitLab := "GITLAB";
  ExternalServices db := db;
  NewSource db svc :=
    if bool_decide (sampleKind svc = "GITHUB"%string)
    then Ok (IsGithubSource {| github_Token := sampleToken svc;
                               v3Client := sampleGranted svc |})
    else Ok (IsGitLabSource {| gitlab_Token := sampleToken svc;
                               gitlab_TokenType := "oauth";
                               client := sampleGranted svc |});
  NewGithubSource store svc :=
    Ok {| github_Token := sampleToken svc; v3Client := sampleGranted svc |};
  NewGitLabSource svc :=
    Ok {| gitlab_Token := sampleToken svc; gitlab_TokenType := "oauth";
          client := sampleGranted svc |};
  GetAuthenticatedOAuthScopes granted := Ok granted;
  GetAuthenticatedUserOAuthScopes granted := Ok granted;
|}.

Definition sampleCache : ScopeCache (gmap string string) := {|
  cache_Get cache key := cache !! key;
  cache_Set cache key value := <[key := value]> cache;
|}.

Definition sampleGithub (token : string) (granted : list string) : sampleService :=
  {| sampleKind := "GITHUB"; sampleToken := token; sampleGranted := granted;
     sampleConfig := "github" |}.

(** A lister over a table: the page at the offset. *)
Definition sampleLister (all : list sampleService) (ids : list Z) (limit offset : Z)
  : result (list sampleService) string :=
  Ok (take (Z.to_nat limit) (drop (Z.to_nat offset) all)).

Definition sampleTable : list sampleService :=
  map (λ config, {| sampleKind := "GITHUB"; sampleToken := "t";
                    sampleGranted := []; sampleConfig := config |})
      ["a"; "none"; "ccc"; "dd"; "broken"; "f"]%string.

Definition sampleGrantedScopes (cache : gmap string string) (svc : sampleService)
  : result (list string) string * gmap string string :=
  @GrantedScopes _ _ _ _ _ _ _ sampleRepos _ sampleCache cache () svc.

Definition sampleSyncer (all : list sampleService) (pageSize : Z)
  : RateLimitSyncer string sampleService :=
  {| serviceLister := sampleLister all; limit := pageSize |}.

(** A lister that serves the first page of two and then fails. *)
Definition sampleBrokenLister (all : list sampleService) (ids : list Z)
    (limit offset : Z) : result (list sampleService) string :=
  if (offset <? 2)%Z then sampleLister all ids limit offset
  else Err "database down"%string.

Definition sampleSync (fuel : nat) (r : RateLimitSyncer string sampleService)
  : option (option string * Registry Z) :=
  @SyncRateLimiters _ _ _ _ _ _ _ sampleRepos fuel r [] [].

(** * The ids of extension insights *)

(** [getCombinedViews] gives every extension insight the id
    [insight.id.split('.').slice(0, -1).join('.')]. On a separator of one
    character [String.prototype.split] cuts like [strings.Split] and
    [Array.prototype.join] joins like [strings.Join]; [slice(0, -1)] keeps
    all elements but the last, and nothing of an empty array. *)
Definition dot : Ascii.ascii := Ascii.ascii_of_nat 46.

Definition js_split (s : string) (sep : Ascii.ascii) : list string :=
  strings_Split s sep.

Definition js_slice_0_minus_1 {A} (xs : list A) : list A := removelast xs.

Definition js_join (xs : list string) (sep : Ascii.ascii) : string :=
  strings_Join xs sep.

Definition extensionInsightId (id : string) : string :=
  js_join (js_slice_0_minus_1 (js_split id dot)) dot.

(** * Properties *)

(** ** The rule composer *)

Section Composer.

Context {Basic : Type}.
Implicit Types (b : Basic) (rules : list (rule Basic))
  (chains : list (list (rule Basic))).

Lemma applyRules_app b rules rules' :
  applyRules b (rules ++ rules') = applyRules b rules ≫= λ b', applyRules b' rules'.
Proof.
  revert b. induction rules as [|r rules IH]; intros b; simpl; [done|].
  destruct (r b) as [next|]; [apply IH | done].
Qed.

Lemma applyRulesList_fold b chains (bs : list Basic) :
  fold_left
    (λ bs l, match applyRules b l with
             | Some generated => bs ++ [generated]
             | None => bs
             end) chains bs
  = bs ++ omap (applyRules b) chains.
Proof.
  revert bs. induction chains as [|l chains IH]; intros bs; simpl.
  - by rewrite app_nil_r.
  - rewrite IH. destruct (applyRules b l); [by rewrite <- app_assoc | done].
Qed.

Lemma applyRulesList_omap b chains :
  applyRulesList b chains = omap (applyRules b) chains.
Proof. unfold applyRulesList. by rewrite applyRulesList_fold. Qed.

Lemma applyRulesList_app b chains chains' :
  applyRulesList b (chains ++ chains')
  = applyRulesList b chains ++ applyRulesList b chains'.
Proof. rewrite !applyRulesList_omap. apply omap_app. Qed.

Lemma omap_length_le {A B} (f : A → option B) (xs : list A) :
  length (omap f xs) ≤ length xs.
Proof. induction xs as [|x xs IH]; csimpl; [lia|]. destruct (f x); csimpl; lia. Qed.

(** C8. Applied to any Basic query with an empty rule chain, [applyRules]
    returns that query itself: a non-nil pointer to the unchanged input. *)
Theorem applyRules_empty_chain b : applyRules b [] = Some b.
Proof. reflexivity. Qed.

(** C3. [applyRules] short-circuits: when the rules in front of a rule [r]
    of the chain have turned [b] into [reached] and [r] does not apply to
    [reached], the whole chain returns nil, whatever rules follow [r]. *)
Theorem applyRules_short_circuit b (front back : list (rule Basic))
    (r : rule Basic) (reached : Basic) :
  applyRules b front = Some reached →
  r reached = None →
  applyRules b (front ++ r :: back) = None.
Proof.
  intros Hfront Hr. rewrite applyRules_app, Hfront. simpl. by rewrite Hr.
Qed.

(** C4. [applyRulesList] tries every chain of the chain set against the
    same input [b], in chain-set order, and returns the results of the
    chains that applied, one each and in that order; so its output has as
    many queries as there are chains that apply, at most as many as there
    are chains. It is a total function to a list of queries: there is no
    error to return. *)
Theorem applyRulesList_collects b chains :
  applyRulesList b chains = omap (λ l, applyRules b l) chains ∧
  length (applyRulesList b chains)
    = length (List.filter (λ l, bool_decide (is_Some (applyRules b l))) chains) ∧
  0 ≤ length (applyRulesList b chains) ≤ length chains.
Proof.
  rewrite applyRulesList_omap. split; [done|]. split.
  - induction chains as [|l chains IH]; csimpl; [done|].
    destruct (applyRules b l); csimpl; [by rewrite IH | done].
  - split; [lia | apply omap_length_le].
Qed.

(** C10. An empty chain of the chain set counts as applied:
    [applyRulesList] puts [b] itself, unchanged, in its output at the
    position of that chain, between what the chains before it and the
    chains after it generate. *)
Theorem applyRulesList_empty_chain b (front back : list (list (rule Basic))) :
  applyRulesList b (front ++ [] :: back)
  = applyRulesList b front ++ b :: applyRulesList b back.
Proof.
  rewrite applyRulesList_app. f_equal.
  by rewrite !applyRulesList_omap.
Qed.

End Composer.

(** ** The unquote rule *)

Section UnquoteWalk.

(** The callback on one pattern. *)
Lemma unquoteCallback_pattern value negated annotation changed :
  ∃ annotation',
    unquoteCallback value negated annotation changed
    = (Pattern value negated annotation',
       changed || isQuoted (value, negated, annotation)) ∧
    unquoted (value, negated, annotation) (value, negated, annotation').
Proof.
  unfold unquoteCallback, unquoted, isQuoted; simpl.
  destruct (labels_IsSet (Labels annotation) Quoted) eqn:Hq.
  - eexists. split; [by rewrite orb_true_r|]. simpl.
    unfold labels_IsSet, labels_Set, labels_Unset.
    repeat split.
    + apply bool_decide_eq_false.
      rewrite elem_of_union, elem_of_difference, !elem_of_singleton.
      intros [[_ Hne]|Heq]; [by apply Hne | done].
    + apply bool_decide_eq_true, elem_of_union_r. by apply elem_of_singleton.
    + intros lbl HQ HL. apply bool_decide_ext.
      rewrite elem_of_union, elem_of_difference, !elem_of_singleton. tauto.
  - exists annotation. split; [by rewrite orb_false_r | done].
Qed.

Lemma walk_nodes nodes :
  Forall walk_node_ok nodes →
  ∀ changed, ∃ nodes',
    mapAccum (mapPatternNode unquoteCallback) nodes changed
    = (nodes', changed || existsb isQuoted (treePatterns nodes)) ∧
    Forall2 unquoted (treePatterns nodes) (treePatterns nodes') ∧
    map skeleton nodes' = map skeleton nodes ∧
    (existsb isQuoted (treePatterns nodes) = false → nodes' = nodes).
Proof.
  unfold treePatterns.
  induction 1 as [|node nodes Hnode _ IH]; intros changed; simpl.
  - exists []. by rewrite orb_false_r.
  - destruct (Hnode changed) as (node' & -> & Hps & Hsk & Hsame).
    destruct (IH (changed || existsb isQuoted (patterns node)))
      as (nodes' & -> & Hps' & Hsk' & Hsame').
    exists (node' :: nodes'). simpl.
    rewrite existsb_app, orb_assoc. repeat split.
    + by apply Forall2_app.
    + by rewrite Hsk, Hsk'.
    + intros [H1 H2]%orb_false_iff. by rewrite Hsame, Hsame'.
Qed.

Lemma walk_node node : walk_node_ok node.
Proof.
  induction node as [value negated annotation|kind operands IH|field value]
    using Node_forall_ind; intros changed; simpl.
  - destruct (unquoteCallback_pattern value negated annotation changed)
      as (annotation' & -> & Hun).
    exists (Pattern value negated annotation'). simpl.
    rewrite orb_false_r. repeat split; [by constructor|].
    intros Hq. unfold unquoted in Hun. rewrite Hq in Hun.
    destruct Hun as (_ & _ & Hun). by inversion Hun.
  - destruct (walk_nodes operands IH changed) as (operands' & -> & Hps & Hsk & Hsame).
    exists (Operator kind operands'). simpl. repeat split; [done| |].
    + by rewrite Hsk.
    + intros Hq. by rewrite Hsame.
  - exists (Param field value). by rewrite orb_false_r.
Qed.

Lemma MapPattern_unquote (tree : list Node) (changed : bool) :
  ∃ tree',
    MapPattern tree unquoteCallback changed
    = (tree', changed || existsb isQuoted (treePatterns tree)) ∧
    Forall2 unquoted (treePatterns tree) (treePatterns tree') ∧
    map skeleton tree' = map skeleton tree ∧
    (existsb isQuoted (treePatterns tree) = false → tree' = tree).
Proof.
  apply walk_nodes, Forall_forall. intros node _. apply walk_node.
Qed.

Lemma countQuoted_zero (tree : list Node) :
  countQuoted tree = 0 → existsb isQuoted (treePatterns tree) = false.
Proof.
  unfold countQuoted. induction (treePatterns tree) as [|p ps IH]; simpl; [done|].
  destruct (isQuoted p); simpl; [done | exact IH].
Qed.

(** C9. The unquote pass changes labels only. Its callback returns a
    pattern with the value and the negated flag it was given; on a pattern
    labelled "quoted" the label [Quoted] is cleared, [Literal] is set and
    no other label changes; any other pattern is returned as it is. Over a
    whole tree, the patterns of the new tree are those of the old one,
    each changed in this way, and the tree is otherwise the same. *)
Theorem unquote_pass_changes_labels_only (tree : list Node) (changed : bool) :
  (∀ value negated annotation, ∃ annotation',
     (unquoteCallback value negated annotation changed).1
     = Pattern value negated annotation' ∧
     unquoted (value, negated, annotation) (value, negated, annotation')) ∧
  Forall2 unquoted
    (treePatterns tree)
    (treePatterns (MapPattern tree unquoteCallback changed).1) ∧
  map skeleton (MapPattern tree unquoteCallback changed).1 = map skeleton tree.
Proof.
  split.
  - intros value negated annotation.
    destruct (unquoteCallback_pattern value negated annotation changed)
      as (annotation' & -> & Hun).
    by exists annotation'.
  - destruct (MapPattern_unquote tree changed) as (tree' & -> & Hps & Hsk & _).
    done.
Qed.

End UnquoteWalk.

Section UnquoteRule.

Context {Basic error step : Type} `{!QueryPackage Basic error step}.

(** [unquotePatterns] in terms of the quoted patterns of the re-parsed
    tree. *)
Lemma unquotePatterns_unfold (b : Basic) :
  unquotePatterns b =
  match Parse (StringHuman (ToParseTree b)) SearchTypeRegex with
  | Err _ => None
  | Ok tree =>
    if existsb isQuoted (treePatterns tree) then
      match Sequence [For SearchTypeLiteralDefault]
              (MapPattern tree unquoteCallback false).1 with
      | Err _ => None
      | Ok newNodes =>
        match ToBasicQuery newNodes with
        | Err _ => None
        | Ok newBasic => Some newBasic
        end
      end
    else None
  end.
Proof.
  unfold unquotePatterns.
  destruct (Parse _ _) as [tree|e]; [|done].
  destruct (MapPattern_unquote tree false) as (tree' & -> & _). simpl.
  by destruct (existsb isQuoted (treePatterns tree)).
Qed.

(** C5. When the tree that [unquotePatterns] re-parses from a Basic query
    has no pattern labelled "quoted", the rule returns nil, and so the
    configured rule list generates no query from that Basic query. *)
Theorem unquotePatterns_nothing_quoted (b : Basic) (tree : list Node) :
  Parse (StringHuman (ToParseTree b)) SearchTypeRegex = Ok tree →
  countQuoted tree = 0 →
  unquotePatterns b = None ∧ applyRulesList b rulesList = [].
Proof.
  intros Hparse Hzero.
  assert (Hnil : unquotePatterns b = None).
  { rewrite unquotePatterns_unfold, Hparse.
    by rewrite (countQuoted_zero tree Hzero). }
  split; [done|].
  unfold applyRulesList, rulesList. simpl. by rewrite Hnil.
Qed.

(** C6. [unquotePatterns] is a total function to an optional query, and
    the failure of any of its three fallible steps makes it return nil:
    the error goes no further. *)
Theorem unquotePatterns_swallows_errors (b : Basic) :
  stepFails b → unquotePatterns b = None.
Proof.
  rewrite unquotePatterns_unfold.
  intros [e Hparse|tree e Hparse Hseq|tree newNodes e Hparse Hseq Hflat];
    rewrite Hparse; [done| |].
  - rewrite Hseq. by destruct (existsb _ _).
  - rewrite Hseq, Hflat. by destruct (existsb _ _).
Qed.

End UnquoteRule.

(** ** The plan expander *)

Section Expander.

Context {Basic SearchInputs Job error step : Type}.
Context `{!QueryPackage Basic error step}.
Context `{!JobPackage SearchInputs Basic Job error}.

Lemma forRange_app {A S} (xs ys : list A) (body : A → S → outcome S) (s : S) :
  forRange (xs ++ ys) body s = forRange xs body s ≫= forRange ys body.
Proof.
  revert s. induction xs as [|x xs IH]; intros s; simpl.
  - done.
  - unfold mbind at 1 3; simpl. destruct (body x s) as [s'|msg]; simpl; [|done].
    apply IH.
Qed.

Lemma forRange_nested {A B S} (xs : list A) (inner : A → list B)
    (body : B → S → outcome S) (s : S) :
  forRange xs (λ x s, forRange (inner x) body s) s
  = forRange (flat_map inner xs) body s.
Proof.
  revert s. induction xs as [|x xs IH]; intros s; simpl; [done|].
  rewrite forRange_app. unfold mbind, outcome_bind.
  destruct (forRange (inner x) body s); [apply IH | done].
Qed.

Lemma appendJob_ok message inputs (b : Basic) (child : Job) (children : list Job) :
  unitOf inputs b child →
  appendJob message inputs b children = Returned (children ++ [child]).
Proof. unfold appendJob, unitOf. by intros ->. Qed.

Lemma appendJob_err message inputs (b : Basic) (e : error) (children : list Job) :
  NewBasicJob inputs b = Err e →
  appendJob message inputs b children = Panicked message.
Proof. unfold appendJob. by intros ->. Qed.

Lemma forRange_appendJob_ok message inputs (bs : list Basic) (js children : list Job) :
  Forall2 (unitOf inputs) bs js →
  forRange bs (appendJob message inputs) children = Returned (children ++ js).
Proof.
  intros Hall. revert children.
  induction Hall as [|b j bs js Hb _ IH]; intros children; simpl.
  - by rewrite app_nil_r.
  - rewrite (appendJob_ok _ _ _ _ _ Hb). unfold mbind, outcome_bind.
    rewrite IH. by rewrite <- app_assoc.
Qed.

Lemma forRange_appendJob_cases message inputs (bs : list Basic) (children : list Job) :
  (∃ js, Forall2 (unitOf inputs) bs js) ∨
  (Exists (λ b, ∃ e, NewBasicJob inputs b = Err e) bs ∧
   forRange bs (appendJob message inputs) children = Panicked message).
Proof.
  revert children. induction bs as [|b bs IH]; intros children.
  - left. exists []. constructor.
  - simpl. destruct (NewBasicJob inputs b) as [j|e] eqn:Hb.
    + rewrite (appendJob_ok _ _ _ j _ Hb). unfold mbind, outcome_bind.
      destruct (IH (children ++ [j])) as [[js Hjs]|[Hex Hpanic]].
      * left. exists (j :: js). by constructor.
      * right. split; [by apply Exists_cons_tl | done].
    + right. rewrite (appendJob_err _ _ _ e _ Hb).
      split; [|done]. apply Exists_cons_hd. by exists e.
Qed.

Lemma NewFeelingLuckySearchJob_unfold inputs (plan : list Basic) :
  NewFeelingLuckySearchJob inputs plan =
  forRange plan (appendJob "TODO" inputs) [] ≫= λ children,
  forRange (generatedQueries plan)
    (appendJob "generated an invalid basic query D:" inputs) children ≫= λ children,
  Returned (NewSequentialJob true children).
Proof.
  unfold NewFeelingLuckySearchJob, generatedQueries, mbind, outcome_bind.
  destruct (forRange plan _ []) as [children|message]; [|done].
  by rewrite <- forRange_nested.
Qed.

(** C1. When [NewBasicJob] makes a job of every query of the plan and of
    every generated query, [NewFeelingLuckySearchJob] returns the one job
    that [NewSequentialJob] builds, with its flag true, from these children
    in this order: the jobs of the queries of the plan, in plan order, and
    after all of them the jobs of the generated queries, query by query in
    plan order and chain by chain within each. This holds for every plan,
    the non-empty ones in particular. *)
Theorem NewFeelingLuckySearchJob_children inputs (plan : list Basic)
    (originals generated : list Job) :
  Forall2 (unitOf inputs) plan originals →
  Forall2 (unitOf inputs) (generatedQueries plan) generated →
  NewFeelingLuckySearchJob inputs plan
  = Returned (NewSequentialJob true (originals ++ generated)).
Proof.
  intros Horig Hgen. rewrite NewFeelingLuckySearchJob_unfold.
  rewrite (forRange_appendJob_ok _ _ _ _ _ Horig). unfold mbind at 1; simpl.
  by rewrite (forRange_appendJob_ok _ _ _ _ _ Hgen).
Qed.

(** C7. When [NewBasicJob] fails on a query of the plan or on a generated
    query, [NewFeelingLuckySearchJob] panics, with the message of its first
    loop or with that of its second: it neither returns a job without that
    query nor returns an error. *)
Theorem NewFeelingLuckySearchJob_construction_failure inputs (plan : list Basic)
    (b : Basic) (e : error) :
  b ∈ plan ++ generatedQueries plan →
  NewBasicJob inputs b = Err e →
  NewFeelingLuckySearchJob inputs plan = Panicked "TODO" ∨
  NewFeelingLuckySearchJob inputs plan
  = Panicked "generated an invalid basic query D:".
Proof.
  intros Hin Hfail. rewrite NewFeelingLuckySearchJob_unfold.
  destruct (forRange_appendJob_cases "TODO" inputs plan [])
    as [[originals Horig]|[_ ->]]; [|by left].
  rewrite (forRange_appendJob_ok _ _ _ _ _ Horig). unfold mbind at 1 3; simpl.
  destruct (forRange_appendJob_cases "generated an invalid basic query D:"
              inputs (generatedQueries plan) originals)
    as [[generated Hgen]|[_ ->]]; [|by right].
  exfalso.
  assert (Hok : ∀ (bs : list Basic) (js : list Job),
            Forall2 (unitOf inputs) bs js → b ∈ bs → False).
  { intros bs js Hall Hb. induction Hall as [|b' j bs js Hb' _ IH].
    - by apply elem_of_nil in Hb.
    - apply elem_of_cons in Hb as [->|Hb]; [|by apply IH].
      unfold unitOf in Hb'. congruence. }
  apply elem_of_app in Hin as [Hin|Hin]; eauto.
Qed.

End Expander.

(** ** Determinism *)

Section Determinism.

Context {W Basic SearchInputs Job error : Type}.
Context `{!JobPackageW W SearchInputs Basic Job error}.







End Determinism.

(** The embedding with the hidden state is the embedding without it when
    the rules and the job constructors leave the hidden state alone. *)
Section HiddenStateUnused.

Context {W Basic SearchInputs Job error step : Type}.
Context `{!QueryPackage Basic error step}.
Context `{!JobPackage SearchInputs Basic Job error}.

Lemma applyRulesW_lift (b : Basic) (rules : list (rule Basic)) (w : W) :
  applyRulesW b (map liftRule rules) w = (applyRules b rules, w).
Proof.
  revert b. induction rules as [|r rules IH]; intros b; simpl; [done|].
  destruct (r b) as [next|]; [apply IH | done].
Qed.

Lemma applyRulesListW_lift (b : Basic) (chains : list (list (rule Basic))) (w : W) :
  applyRulesListW b (map (map liftRule) chains) w = (applyRulesList b chains, w).
Proof.
  unfold applyRulesListW, applyRulesList.
  change (@nil Basic, w) with (@nil Basic ++ [], w).
  change (fold_left ?f chains []) with (fold_left f chains ([] ++ [])).
  generalize (@nil Basic ++ []) as bs.
  induction chains as [|l chains IH]; intros bs; simpl; [done|].
  rewrite applyRulesW_lift. destruct (applyRules b l); apply IH.
Qed.

Lemma forRangeW_lift {A S} (xs : list A) (body : A → S → outcome S)
    (bodyW : A → S → W → outcome (S * W)) (s : S) (w : W) :
  (∀ x s w, bodyW x s w = liftOutcome (body x s) w) →
  forRangeW xs bodyW s w = liftOutcome (forRange xs body s) w.
Proof.
  intros Hbody. revert s. induction xs as [|x xs IH]; intros s; simpl; [done|].
  rewrite Hbody. unfold mbind, outcome_bind.
  destruct (body x s) as [s'|message]; simpl; [apply IH | done].
Qed.

Lemma NewFeelingLuckySearchJobW_lift (inputs : SearchInputs) (plan : list Basic)
    (w : W) :
  @NewFeelingLuckySearchJobW _ _ _ _ _ (liftJobs JobPackage0)
    (map (map liftRule) rulesList) inputs plan w
  = liftOutcome (NewFeelingLuckySearchJob inputs plan) w.
Proof.
  assert (Hpure : NewFeelingLuckySearchJob inputs plan =
            forRange plan (appendJob "TODO" inputs) [] ≫= λ children,
            forRange plan (λ b children,
                forRange (applyRulesList b rulesList)
                  (appendJob "generated an invalid basic query D:" inputs) children)
              children ≫= λ children,
            Returned (NewSequentialJob true children)) by reflexivity.
  rewrite Hpure. clear Hpure.
  unfold NewFeelingLuckySearchJobW, mbind, outcome_bind.
  rewrite (forRangeW_lift plan (appendJob "TODO" inputs)).
  2: { intros x s v. unfold appendJob. simpl. by destruct (NewBasicJob inputs x). }
  destruct (forRange plan (appendJob "TODO" inputs) []) as [children|message];
    cbn [liftOutcome]; [|done].
  rewrite (forRangeW_lift plan (λ b children,
             forRange (applyRulesList b rulesList)
               (appendJob "generated an invalid basic query D:" inputs) children)).
  2: { intros x s v. rewrite applyRulesListW_lift.
       apply forRangeW_lift.
       intros y t u. unfold appendJob. simpl. by destruct (NewBasicJob inputs y). }
  by destruct (forRange plan _ children).
Qed.

End HiddenStateUnused.


(** ** The sample packages: the scenarios of the specification, and the
    theorems above at concrete inputs *)

Lemma sampleUnquote_quoted :
  sampleUnquote (inQuotes "foo") = Some "foo"%string.
Proof. vm_compute. reflexivity. Qed.

Lemma sampleExpand_scenarios :
  sampleExpand 7 [inQuotes "foo"]
  = Returned (SequentialJob true [BasicJob 7 (inQuotes "foo"); BasicJob 7 "foo"]) ∧
  sampleExpand 7 ["foo"; "bar"]%string
  = Returned (SequentialJob true [BasicJob 7 "foo"; BasicJob 7 "bar"]) ∧
  sampleExpand 7 [inQuotes "foo"; "bar"%string]
  = Returned (SequentialJob true
      [BasicJob 7 (inQuotes "foo"); BasicJob 7 "bar"; BasicJob 7 "foo"]).
Proof. repeat split; vm_compute; reflexivity. Qed.

Lemma applyRules_short_circuit_witness :
  applyRules (inQuotes "foo") ([sampleUnquote] ++ sampleUnquote :: [sampleUnquote])
  = None.
Proof.
  apply (applyRules_short_circuit (inQuotes "foo") [sampleUnquote] [sampleUnquote]
           sampleUnquote "foo"%string); vm_compute; reflexivity.
Defined.

Lemma unquotePatterns_nothing_quoted_witness :
  countQuoted [Pattern "bar" false {| Labels := {[Regexp]} |}] = 0 ∧
  sampleUnquote "bar"%string = None ∧
  applyRulesList "bar"%string (@rulesList _ _ _ sampleQuery) = [].
Proof.
  split; [vm_compute; reflexivity|].
  apply (@unquotePatterns_nothing_quoted _ _ _ sampleQuery "bar"%string
           [Pattern "bar" false {| Labels := {[Regexp]} |}]);
    vm_compute; reflexivity.
Defined.

Lemma unquotePatterns_swallows_errors_witness :
  sampleUnquote EmptyString = None ∧
  sampleUnquote (inQuotes "seq") = None ∧
  sampleUnquote (inQuotes "flat") = None.
Proof.
  split; [|split].
  - apply (@unquotePatterns_swallows_errors _ _ _ sampleQuery).
    apply (parseFails _ "empty query"%string). vm_compute; reflexivity.
  - apply (@unquotePatterns_swallows_errors _ _ _ sampleQuery).
    apply (sequenceFails _ [Pattern "seq" false {| Labels := {[Quoted]} |}]
             "cannot sequence"%string); vm_compute; reflexivity.
  - apply (@unquotePatterns_swallows_errors _ _ _ sampleQuery).
    apply (toBasicQueryFails _ [Pattern "flat" false {| Labels := {[Quoted]} |}]
             [Pattern "flat" false {| Labels := {[Literal]} |}]
             "cannot flatten"%string); vm_compute; reflexivity.
Defined.

Lemma NewFeelingLuckySearchJob_children_witness :
  sampleExpand 7 [inQuotes "foo"; "bar"%string]
  = Returned (SequentialJob true
      ([BasicJob 7 (inQuotes "foo"); BasicJob 7 "bar"] ++ [BasicJob 7 "foo"])).
Proof.
  apply (@NewFeelingLuckySearchJob_children _ _ _ _ _ sampleQuery sampleJobs 7
           [inQuotes "foo"; "bar"%string]
           [BasicJob 7 (inQuotes "foo"); BasicJob 7 "bar"] [BasicJob 7 "foo"]);
    vm_compute; repeat constructor.
Defined.

Lemma NewFeelingLuckySearchJob_construction_failure_witness :
  (sampleExpand 7 ["ok"; "bad"]%string = Panicked "TODO" ∨
   sampleExpand 7 ["ok"; "bad"]%string
   = Panicked "generated an invalid basic query D:") ∧
  (sampleExpand 7 [inQuotes "bad"] = Panicked "TODO" ∨
   sampleExpand 7 [inQuotes "bad"]
   = Panicked "generated an invalid basic query D:").
Proof.
  split.
  - apply (@NewFeelingLuckySearchJob_construction_failure _ _ _ _ _
             sampleQuery sampleJobs 7 ["ok"; "bad"]%string "bad"%string
             "cannot build"%string); [|vm_compute; reflexivity].
    apply elem_of_app. left. repeat constructor.
  - apply (@NewFeelingLuckySearchJob_construction_failure _ _ _ _ _
             sampleQuery sampleJobs 7 [inQuotes "bad"] "bad"%string
             "cannot build"%string); [|vm_compute; reflexivity].
    apply elem_of_app. right. vm_compute. repeat constructor.
Defined.


Lemma sampleExpandW_runs :
  valueOf (@NewFeelingLuckySearchJobW _ _ _ _ _ sampleJobsW
             [[sampleUnquoteW]] 7 [inQuotes "foo"; "bar"%string] 0)
  = sampleExpand 7 [inQuotes "foo"; "bar"%string] ∧
  (@NewFeelingLuckySearchJobW _ _ _ _ _ sampleJobsW
     [[sampleUnquoteW]] 7 [inQuotes "foo"; "bar"%string] 0
   = Returned (SequentialJob true
        [BasicJob 7 (inQuotes "foo"); BasicJob 7 "bar"; BasicJob 7 "foo"], 11)).
Proof. split; vm_compute; reflexivity. Qed.

(** A loop over a map would not pass: with the same stateless rule, two
    hidden states give its queries in two orders. *)
Lemma applyRulesListOverMap_depends_on_seed :
  Forall (Forall statelessRule) [[sampleUnquoteW]; []] ∧
  (applyRulesListOverMap (inQuotes "foo") [[sampleUnquoteW]; []] 0).1
  ≠ (applyRulesListOverMap (inQuotes "foo") [[sampleUnquoteW]; []] 1).1.
Proof.
  split.
  - repeat first [apply List.Forall_nil | apply List.Forall_cons
                  | intros b w w'; reflexivity].
  - vm_compute. discriminate.
Qed.


(** * Package [repos] *)

(** ** The token hash *)

Section TokenHash.

Context {error ExternalService Limit DB Store GithubClient GitLabClient : Type}.
Context `{!ReposPackage error ExternalService Limit DB Store GithubClient GitLabClient}.

Lemma hexDigit_in (i : Z) : (0 ≤ i < 16)%Z → isHexDigit (hexDigit i).
Proof.
  intros Hi. unfold isHexDigit, hexDigit. apply nth_In.
  change (length (list_ascii_of_string hextable)) with 16%nat. lia.
Qed.

Lemma byteOf_range (v : Z) : (0 ≤ byteOf v < 256)%Z.
Proof.
  unfold byteOf. change 255%Z with (Z.ones 8). rewrite Z.land_ones by lia.
  apply Z.mod_pos_bound. lia.
Qed.

Lemma hex_EncodeToString_digits (src : list Z) :
  Forall (λ v, (0 ≤ v < 256)%Z) src →
  String.length (hex_EncodeToString src) = (2 * length src)%nat ∧
  Forall isHexDigit (list_ascii_of_string (hex_EncodeToString src)).
Proof.
  induction 1 as [|v src Hv _ [IHlen IHall]]; simpl; [by split|].
  split; [lia|].
  apply List.Forall_cons; [|apply List.Forall_cons; [|exact IHall]].
  - apply hexDigit_in. rewrite Z.shiftr_div_pow2 by lia.
    change (2 ^ 4)%Z with 16%Z. split; [apply Z.div_pos; lia|].
    apply Z.div_lt_upper_bound; lia.
  - apply hexDigit_in. change 15%Z with (Z.ones 4). rewrite Z.land_ones by lia.
    apply Z.mod_pos_bound. lia.
Qed.

(** X1. [hashToken] never returns an error: for every token it returns a
    key of exactly eight characters, each of them one of the lower-case
    hexadecimal digits. *)
Theorem hashToken_eight_hex_digits (token : string) :
  ∃ key, hashToken token = Ok key ∧
         String.length key = 8%nat ∧
         Forall isHexDigit (list_ascii_of_string key).
Proof.
  unfold hashToken, sum32_Write, sum32_Sum. eexists. split; [reflexivity|].
  apply (hex_EncodeToString_digits [_; _; _; _]).
  repeat constructor; apply byteOf_range.
Qed.

End TokenHash.

Lemma hashToken_test_vectors :
  @hashToken _ _ _ _ _ _ _ sampleRepos "" = Ok "811c9dc5"%string ∧
  @hashToken _ _ _ _ _ _ _ sampleRepos "a" = Ok "050c5d7e"%string ∧
  @hashToken _ _ _ _ _ _ _ sampleRepos "abc" = Ok "439c2f4b"%string.
Proof. repeat split; vm_compute; reflexivity. Qed.

(** X2. [hashToken] is not injective: two different tokens can have the
    same key, as the tokens [byvhxp] and [7uu2ac] do. *)
Theorem hashToken_not_injective
    {error ExternalService Limit DB Store GithubClient GitLabClient : Type}
    `{!ReposPackage error ExternalService Limit DB Store GithubClient GitLabClient} :
  ∃ token token' : string,
    token ≠ token' ∧ hashToken token = hashToken token'.
Proof.
  exists "byvhxp"%string, "7uu2ac"%string. split; [discriminate|].
  unfold hashToken, sum32_Write. simpl. f_equal.
Qed.

(** ** Splitting and joining *)

Lemma strings_Split_nonempty (s : string) (sep : Ascii.ascii) :
  strings_Split s sep ≠ [].
Proof.
  destruct s as [|c s]; simpl; [done|].
  destruct (Ascii.eqb c sep); [done|]. by destruct (strings_Split s sep).
Qed.

Lemma strings_Split_free (s : string) (sep : Ascii.ascii) :
  freeOf sep s → strings_Split s sep = [s].
Proof.
  unfold freeOf. induction s as [|c s IH]; simpl; [done|].
  intros Hfree. destruct (Ascii.eqb_spec c sep) as [->|Hne]; [tauto|].
  rewrite IH; [done | tauto].
Qed.

Lemma strings_Split_append (s rest : string) (sep : Ascii.ascii) :
  freeOf sep s →
  strings_Split (s ++ String sep rest) sep = s :: strings_Split rest sep.
Proof.
  unfold freeOf. induction s as [|c s IH]; simpl.
  - intros _. by rewrite Ascii.eqb_refl.
  - intros Hfree. destruct (Ascii.eqb_spec c sep) as [->|Hne]; [tauto|].
    rewrite IH; [done | tauto].
Qed.

Lemma strings_Split_Join (elems : list string) (sep : Ascii.ascii) :
  elems ≠ [] → Forall (freeOf sep) elems →
  strings_Split (strings_Join elems sep) sep = elems.
Proof.
  intros Hne Hfree. induction Hfree as [|e elems He Hfree IH]; [done|].
  destruct elems as [|e' elems]; simpl.
  - by apply strings_Split_free.
  - rewrite strings_Split_append by done. f_equal. by apply IH.
Qed.

Lemma strings_Join_empty (elems : list string) (sep : Ascii.ascii) :
  strings_Join elems sep ≠ EmptyString → elems ≠ [].
Proof. by destruct elems. Qed.

(** ** Granted scopes *)

Section GrantedScopesFacts.

Context {error ExternalService Limit DB Store GithubClient GitLabClient : Type}.
Context `{!ReposPackage error ExternalService Limit DB Store GithubClient GitLabClient}.
Context {C : Type} `{!ScopeCache C}.

Lemma usesToken_guard (svc : ExternalService) :
  usesToken svc →
  svc_IsSiteOwned svc
  || (negb (String.eqb (svc_Kind svc) KindGitHub)
      && negb (String.eqb (svc_Kind svc) KindGitLab)) = false.
Proof.
  intros [-> [Hkind|Hkind]]; rewrite Hkind, String.eqb_refl; simpl; [done|].
  by rewrite andb_false_r.
Qed.

Lemma token_not_empty (token : string) :
  token ≠ EmptyString → String.eqb token "" = false.
Proof. intros Hne. by apply String.eqb_neq. Qed.

(** The fast path: the key of the token is in the cache. *)
Lemma GrantedScopes_cached (cache : C) db svc (token key cached : string) :
  tokenOf db svc token →
  hashToken token = Ok key →
  cachedScopes cache key = Some cached →
  GrantedScopes cache db svc = (Ok (strings_Split cached comma), cache).
Proof.
  intros Htoken Hkey Hcached. unfold GrantedScopes.
  destruct Htoken as [v Huses Hsrc <- Hne|v Huses Hsrc Htype <- Hne];
    rewrite (usesToken_guard svc Huses), Hsrc.
  - by rewrite (token_not_empty _ Hne), Hkey, Hcached.
  - rewrite Htype, String.eqb_refl. cbn [negb].
    by rewrite (token_not_empty _ Hne), Hkey, Hcached.
Qed.

(** The slow path: the key is not in the cache and the code host answers. *)
Lemma GrantedScopes_fetched (cache : C) db svc (token key : string)
    (scopes : list string) :
  tokenOf db svc token →
  hashToken token = Ok key →
  cachedScopes cache key = None →
  fetched db svc scopes →
  GrantedScopes cache db svc
  = (Ok scopes, cache_Set cache key (strings_Join scopes comma)).
Proof.
  intros Htoken Hkey Hmiss Hfetched. unfold GrantedScopes.
  destruct Htoken as [v Huses Hsrc <- Hne|v Huses Hsrc Htype <- Hne];
    rewrite (usesToken_guard svc Huses), Hsrc;
    destruct Hfetched as [v' src' Hsrc' Hnew Hget|v' src' Hsrc' Hnew Hget];
    try congruence.
  - by rewrite (token_not_empty _ Hne), Hkey, Hmiss, Hnew, Hget.
  - rewrite Htype, String.eqb_refl. cbn [negb].
    by rewrite (token_not_empty _ Hne), Hkey, Hmiss, Hnew, Hget.
Qed.

Lemma cachedScopes_Set (cache : C) (key value : string) :
  (∀ (c : C) k v, cache_Get (cache_Set c k v) k = Some v) →
  cachedScopes (cache_Set cache key value) key
  = if (0 <? String.length value)%nat then Some value else None.
Proof. intros Hlaw. unfold cachedScopes. by rewrite Hlaw. Qed.

(** X3. For a site-owned service, and for a service whose kind is neither
    GitHub nor GitLab, [GrantedScopes] returns no scopes and no error and
    leaves the cache as it is, without making a source of the service. *)
Theorem GrantedScopes_not_supported (cache : C) (db : DB) (svc : ExternalService) :
  svc_IsSiteOwned svc = true ∨
  (svc_Kind svc ≠ KindGitHub ∧ svc_Kind svc ≠ KindGitLab) →
  GrantedScopes cache db svc = (Ok [], cache).
Proof.
  unfold GrantedScopes. intros [->|[HnotGitHub HnotGitLab]]; [done|].
  apply String.eqb_neq in HnotGitHub, HnotGitLab.
  rewrite HnotGitHub, HnotGitLab. simpl. by rewrite orb_true_r.
Qed.

(** X4. [GrantedScopes] writes the cache at most once, and only on its slow
    path when the code host has answered: either the cache is left as it is,
    or the call returns the scopes it fetched and the cache has their join
    by commas under the key of the token, a key under which it held nothing
    usable. So no call that returns an error touches the cache. *)
Theorem GrantedScopes_cache_written_on_fetch (cache : C) (db : DB)
    (svc : ExternalService) :
  (GrantedScopes cache db svc).2 = cache ∨
  ∃ token key scopes,
    tokenOf db svc token ∧ hashToken token = Ok key ∧
    cachedScopes cache key = None ∧ fetched db svc scopes ∧
    GrantedScopes cache db svc
    = (Ok scopes, cache_Set cache key (strings_Join scopes comma)).
Proof.
  unfold GrantedScopes at 1.
  destruct (svc_IsSiteOwned svc) eqn:Hsite; [by left|].
  destruct (String.eqb_spec (svc_Kind svc) KindGitHub) as [HGitHub|HGitHub];
    destruct (String.eqb_spec (svc_Kind svc) KindGitLab) as [HGitLab|HGitLab];
    cbn [orb andb negb]; try (by left).
  all: assert (Huses : usesToken svc) by (split; [done | tauto]).
  all: destruct (NewSource db svc) as [[v|v|typeName]|err] eqn:Hsrc; try (by left).
  all: try (destruct (String.eqb_spec (gitlab_TokenType v) "oauth") as [Htype|Htype];
            cbn [negb]; [|by left]).
  all: match goal with
       | |- context [String.eqb ?token ""] =>
         destruct (String.eqb_spec token "") as [Hempty|Hempty]; [by left|]
       end.
  all: match goal with
       | |- context [hashToken ?token] =>
         destruct (hashToken token) as [key|err] eqn:Hkey; [|by left]
       end.
  all: destruct (cachedScopes cache key) as [cached|] eqn:Hcached; [by left|].
  all: match goal with
       | |- context [NewGithubSource ?store ?s] =>
         destruct (NewGithubSource store s) as [src|err] eqn:Hnew; [|by left]
       | |- context [NewGitLabSource ?s] =>
         destruct (NewGitLabSource s) as [src|err] eqn:Hnew; [|by left]
       end.
  all: match goal with
       | |- context [GetAuthenticatedOAuthScopes ?c] =>
         destruct (GetAuthenticatedOAuthScopes c) as [scopes|err] eqn:Hget; [|by left]
       | |- context [GetAuthenticatedUserOAuthScopes ?c] =>
         destruct (GetAuthenticatedUserOAuthScopes c) as [scopes|err] eqn:Hget;
           [|by left]
       end.
  all: right; eexists _, key, scopes.
  all: assert (Hfetched : fetched db svc scopes)
         by (first [by eapply fetchedGithub | by eapply fetchedGitLab]).
  all: match goal with
       | v : GithubSource _ |- _ =>
         assert (Htoken : tokenOf db svc (github_Token v))
           by (by eapply tokenOfGithub)
       | v : GitLabSource _ |- _ =>
         assert (Htoken : tokenOf db svc (gitlab_Token v))
           by (by eapply tokenOfGitLab)
       end.
  all: repeat split; try eassumption.
  all: eapply GrantedScopes_fetched; eassumption.
Qed.

End GrantedScopesFacts.

Section GrantedScopesCache.

Context {error ExternalService Limit DB Store GithubClient GitLabClient : Type}.
Context `{!ReposPackage error ExternalService Limit DB Store GithubClient GitLabClient}.
Context {C : Type} `{!ScopeCache C}.

Lemma length_pos_not_empty (s : string) :
  s ≠ EmptyString → (0 <? String.length s)%nat = true.
Proof. by destruct s. Qed.

(** X5. When the cache holds a non-empty value under the key of the token
    of the service, [GrantedScopes] returns the pieces of that value
    between its commas and leaves the cache as it is, whatever the code host
    would answer. *)
Theorem GrantedScopes_cache_hit (cache : C) (db : DB) (svc : ExternalService)
    (token key cached : string) :
  tokenOf db svc token →
  hashToken token = Ok key →
  cache_Get cache key = Some cached →
  cached ≠ EmptyString →
  GrantedScopes cache db svc = (Ok (strings_Split cached comma), cache).
Proof.
  intros Htoken Hkey Hget Hne.
  apply GrantedScopes_cached with (token := token) (key := key); [done..|].
  unfold cachedScopes. by rewrite Hget, (length_pos_not_empty _ Hne).
Qed.

(** X6. With a cache that returns under a key what was last set under it:
    when a call of [GrantedScopes] fetches scopes from the code host, none
    of which contains a comma and whose join is not empty, the next call
    for the same service returns the same scopes from the cache and leaves
    the cache as it is. *)
Theorem GrantedScopes_second_call_cached (cache : C) (db : DB)
    (svc : ExternalService) (token key : string) (scopes : list string) :
  (∀ (c : C) k v, cache_Get (cache_Set c k v) k = Some v) →
  tokenOf db svc token →
  hashToken token = Ok key →
  cachedScopes cache key = None →
  fetched db svc scopes →
  Forall (freeOf comma) scopes →
  strings_Join scopes comma ≠ EmptyString →
  ∃ cache',
    GrantedScopes cache db svc = (Ok scopes, cache') ∧
    GrantedScopes cache' db svc = (Ok scopes, cache').
Proof.
  intros Hlaw Htoken Hkey Hmiss Hfetched Hfree Hne.
  exists (cache_Set cache key (strings_Join scopes comma)).
  split; [by apply GrantedScopes_fetched with (token := token)|].
  rewrite (GrantedScopes_cached _ db svc token key (strings_Join scopes comma));
    [|done..|].
  - rewrite strings_Split_Join; [done| |done]. by eapply strings_Join_empty.
  - rewrite cachedScopes_Set by done. by rewrite (length_pos_not_empty _ Hne).
Qed.

(** X7. An empty grant is never served from the cache. With a cache that
    returns under a key what was last set under it: when the scopes that the
    code host answers join to the empty string, as the empty list of scopes
    does, [GrantedScopes] stores the empty string, and the next call asks
    the code host again and stores it again. *)
Theorem GrantedScopes_empty_grant_refetched (cache : C) (db : DB)
    (svc : ExternalService) (token key : string) (scopes : list string) :
  (∀ (c : C) k v, cache_Get (cache_Set c k v) k = Some v) →
  tokenOf db svc token →
  hashToken token = Ok key →
  cachedScopes cache key = None →
  fetched db svc scopes →
  strings_Join scopes comma = EmptyString →
  GrantedScopes cache db svc = (Ok scopes, cache_Set cache key EmptyString) ∧
  GrantedScopes (cache_Set cache key EmptyString) db svc
  = (Ok scopes, cache_Set (cache_Set cache key EmptyString) key EmptyString).
Proof.
  intros Hlaw Htoken Hkey Hmiss Hfetched Hempty.
  split.
  - rewrite <- Hempty. by apply GrantedScopes_fetched with (token := token).
  - rewrite <- Hempty at 3.
    apply GrantedScopes_fetched with (token := token); [done..| |done].
    by rewrite cachedScopes_Set.
Qed.

(** X8. The cache is shared between tokens that have the same key. With a
    cache that returns under a key what was last set under it: after a call
    of [GrantedScopes] has fetched the scopes of one service (none with a
    comma, their join not empty), a call for another service whose token has
    the same key returns the scopes of the first service, whatever the code
    host would answer for the second. *)
Theorem GrantedScopes_shared_between_colliding_tokens (cache : C) (db : DB)
    (svc svc' : ExternalService) (token token' key : string)
    (scopes : list string) :
  (∀ (c : C) k v, cache_Get (cache_Set c k v) k = Some v) →
  tokenOf db svc token →
  tokenOf db svc' token' →
  hashToken token = Ok key →
  hashToken token' = Ok key →
  cachedScopes cache key = None →
  fetched db svc scopes →
  Forall (freeOf comma) scopes →
  strings_Join scopes comma ≠ EmptyString →
  ∃ cache',
    GrantedScopes cache db svc = (Ok scopes, cache') ∧
    GrantedScopes cache' db svc' = (Ok scopes, cache').
Proof.
  intros Hlaw Htoken Htoken' Hkey Hkey' Hmiss Hfetched Hfree Hne.
  exists (cache_Set cache key (strings_Join scopes comma)).
  split; [by apply GrantedScopes_fetched with (token := token)|].
  rewrite (GrantedScopes_cached _ db svc' token' key (strings_Join scopes comma));
    [|done..|].
  - rewrite strings_Split_Join; [done| |done]. by eapply strings_Join_empty.
  - rewrite cachedScopes_Set by done. by rewrite (length_pos_not_empty _ Hne).
Qed.

End GrantedScopesCache.

(** ** Syncing rate limits *)

Section SyncFacts.

Context {error ExternalService Limit DB Store GithubClient GitLabClient : Type}.
Context `{!ReposPackage error ExternalService Limit DB Store GithubClient GitLabClient}.

Implicit Types (services all : list ExternalService) (registry : Registry Limit).

Lemma syncServices_app services services' registry :
  syncServices (services ++ services') registry =
  match syncServices services registry with
  | (Some err, registry') => (Some err, registry')
  | (None, registry') => syncServices services' registry'
  end.
Proof.
  revert registry. induction services as [|svc services IH]; intros registry; simpl.
  - done.
  - destruct (ExtractRateLimit _ _) as [l|err]; [apply IH|].
    destruct (isRateLimitUnsupported err); [apply IH | done].
Qed.

Lemma syncServices_all_limited services registry :
  Forall limitedOrUnsupported services →
  syncServices services registry = (None, registry ++ omap limitOf services).
Proof.
  intros Hall. revert registry.
  induction Hall as [|svc services Hsvc _ IH]; intros registry; csimpl.
  - by rewrite app_nil_r.
  - unfold limitOf at 1. unfold limitedOrUnsupported in Hsvc.
    destruct (ExtractRateLimit _ _) as [l|err].
    + rewrite IH. by rewrite <- app_assoc.
    + by rewrite (Hsvc err eq_refl), IH.
Qed.

Lemma syncServices_hard_error services registry svc err :
  ExtractRateLimit (svc_Config svc) (svc_Kind svc) = Err err →
  isRateLimitUnsupported err = false →
  syncServices (svc :: services) registry
  = (Some (errors_Wrap err "getting rate limit configuration"), registry).
Proof. intros Hext Hhard. simpl. by rewrite Hext, Hhard. Qed.

(** The loop over the pages of a table does what the inner loop does over
    the rest of the table. *)
Lemma syncLoop_pages (r : RateLimitSyncer error ExternalService) (ids : list Z) all :
  servesPages r ids all →
  (0 < limit r)%Z →
  (Z.of_nat (length all) < 2 ^ 63)%Z →
  ∀ (fuel done : nat) registry,
    done ≤ length all →
    length all - done < fuel →
    syncLoop fuel r ids (Z.of_nat done) registry
    = Some (syncServices (drop done all) registry).
Proof.
  intros Hpages Hlimit Hsize.
  induction fuel as [|fuel IH]; intros done registry Hdone Hfuel; [lia|].
  simpl. rewrite Hpages by lia. rewrite Nat2Z.id.
  set (page := Z.to_nat (limit r)).
  assert (Hpage : 0 < page) by (unfold page; lia).
  assert (Hlen : length (take page (drop done all))
                 = page `min` (length all - done)).
  { by rewrite length_take, length_drop. }
  rewrite <- (take_drop page (drop done all)) at 3.
  rewrite syncServices_app, drop_drop.
  destruct (Z.eqb_spec (Z.of_nat (length (take page (drop done all)))) 0)
    as [Hzero|Hsome].
  - assert (Hnil : take page (drop done all) = []) by (apply nil_length_inv; lia).
    rewrite Hnil. simpl.
    rewrite (nil_length_inv (drop (done + page) all)); [done|].
    rewrite length_drop. lia.
  - destruct (syncServices (take page (drop done all)) registry)
      as [[err|] registry']; [done|].
    destruct (Z.ltb_spec (Z.of_nat (length (take page (drop done all)))) (limit r))
      as [Hshort|Hfull].
    + rewrite (nil_length_inv (drop (done + page) all)); [done|].
      rewrite length_drop. unfold page in *. lia.
    + assert (Hwhole : length (take page (drop done all)) = page)
        by (unfold page in *; lia).
      rewrite Hwhole.
      replace (wrap64 (Z.of_nat done + Z.of_nat page))
        with (Z.of_nat (done + page)).
      * apply IH; lia.
      * unfold wrap64. rewrite Z.mod_small; lia.
Qed.

(** X9. Paging does not show. When the lister serves a table of fewer than
    2^63 services page by page and the limit of the syncer is positive,
    [SyncRateLimiters] ends, within one iteration more than the table has
    services, and does to the registry, and returns, what its inner loop
    does in one pass over the whole table, whatever the limit is. *)
Theorem SyncRateLimiters_one_pass (r : RateLimitSyncer error ExternalService)
    (ids : list Z) all (fuel : nat) registry :
  servesPages r ids all →
  (0 < limit r)%Z →
  (Z.of_nat (length all) < 2 ^ 63)%Z →
  length all < fuel →
  SyncRateLimiters fuel r ids registry = Some (syncServices all registry).
Proof.
  intros Hpages Hlimit Hsize Hfuel. unfold SyncRateLimiters.
  apply (syncLoop_pages r ids all Hpages Hlimit Hsize fuel 0 registry); lia.
Qed.

(** X10. When every service of the table has a rate limit or a kind without
    one, [SyncRateLimiters] returns no error and sets, in the order of the
    table, the limit of each listed service that has one, under its URN,
    with one call for each; the services of a kind without rate limit are
    passed over. *)
Theorem SyncRateLimiters_sets_every_limit (r : RateLimitSyncer error ExternalService)
    (ids : list Z) all (fuel : nat) registry :
  servesPages r ids all →
  (0 < limit r)%Z →
  (Z.of_nat (length all) < 2 ^ 63)%Z →
  length all < fuel →
  Forall limitedOrUnsupported all →
  SyncRateLimiters fuel r ids registry
  = Some (None, registry ++ omap limitOf all).
Proof.
  intros Hpages Hlimit Hsize Hfuel Hall. unfold SyncRateLimiters.
  change 0%Z with (Z.of_nat 0).
  rewrite (syncLoop_pages r ids all Hpages Hlimit Hsize fuel 0 registry) by lia.
  by rewrite drop_0, syncServices_all_limited.
Qed.

(** X11. The first service whose rate limit cannot be read, for another
    reason than its kind having none, ends the sync: [SyncRateLimiters]
    returns that error, wrapped; the limits of the services before it in the
    table are set, also those of the same page, and no limit of a service
    after it is. *)
Theorem SyncRateLimiters_stops_at_first_error
    (r : RateLimitSyncer error ExternalService) (ids : list Z)
    (front back : list ExternalService) (svc : ExternalService) (err : error)
    (fuel : nat) registry :
  servesPages r ids (front ++ svc :: back) →
  (0 < limit r)%Z →
  (Z.of_nat (length (front ++ svc :: back)) < 2 ^ 63)%Z →
  length (front ++ svc :: back) < fuel →
  Forall limitedOrUnsupported front →
  ExtractRateLimit (svc_Config svc) (svc_Kind svc) = Err err →
  isRateLimitUnsupported err = false →
  SyncRateLimiters fuel r ids registry
  = Some (Some (errors_Wrap err "getting rate limit configuration"),
          registry ++ omap limitOf front).
Proof.
  intros Hpages Hlimit Hsize Hfuel Hfront Hext Hhard. unfold SyncRateLimiters.
  change 0%Z with (Z.of_nat 0).
  rewrite (syncLoop_pages r ids _ Hpages Hlimit Hsize fuel 0 registry) by lia.
  rewrite drop_0, syncServices_app, (syncServices_all_limited front) by done.
  by rewrite (syncServices_hard_error back _ svc err).
Qed.

Lemma syncLoop_lister_error (r : RateLimitSyncer error ExternalService)
    (ids : list Z) all (err : error) (pages : nat) :
  (0 < limit r)%Z →
  (Z.of_nat (length all) < 2 ^ 63)%Z →
  ∀ (fuel done : nat) registry,
    (∀ offset, (Z.of_nat done ≤ offset < Z.of_nat (done + pages * Z.to_nat (limit r)))%Z →
       serviceLister r ids (limit r) offset
       = Ok (take (Z.to_nat (limit r)) (drop (Z.to_nat offset) all))) →
    serviceLister r ids (limit r) (Z.of_nat (done + pages * Z.to_nat (limit r)))
    = Err err →
    done + pages * Z.to_nat (limit r) ≤ length all →
    pages < fuel →
    syncLoop fuel r ids (Z.of_nat done) registry =
    Some match syncServices (take (pages * Z.to_nat (limit r)) (drop done all))
                 registry with
         | (Some stopped, registry') => (Some stopped, registry')
         | (None, registry') =>
           (Some (errors_Wrap err "listing external services"), registry')
         end.
Proof.
  intros Hlimit Hsize. set (page := Z.to_nat (limit r)).
  assert (Hpage : 0 < page) by (unfold page; lia).
  induction pages as [|pages IH];
    intros fuel done registry Hserved Hfail Hin Hfuel;
    (destruct fuel as [|fuel]; [lia|]); simpl.
  - rewrite Nat.add_0_r in Hfail. by rewrite Hfail.
  - rewrite Hserved by lia. rewrite Nat2Z.id.
    assert (Hwhole : length (take page (drop done all)) = page).
    { rewrite length_take, length_drop. lia. }
    rewrite Hwhole.
    destruct (Z.eqb_spec (Z.of_nat page) 0) as [Hzero|_]; [lia|].
    replace (take (page + pages * page) (drop done all))
      with (take page (drop done all)
            ++ take (pages * page) (drop (done + page) all)).
    2: { rewrite <- drop_drop. rewrite <- (take_drop page (drop done all)) at 3.
         rewrite take_app_add'; [done|]. by rewrite Hwhole. }
    rewrite syncServices_app.
    destruct (syncServices (take page (drop done all)) registry)
      as [[stopped|] registry']; [done|].
    destruct (Z.ltb_spec (Z.of_nat page) (limit r)) as [Hshort|_];
      [unfold page in Hshort; lia|].
    replace (wrap64 (Z.of_nat done + Z.of_nat page)) with (Z.of_nat (done + page)).
    2: { unfold wrap64. rewrite Z.mod_small; lia. }
    apply IH; [|by replace (done + page + pages * page)
                      with (done + S pages * page) by lia|lia..].
    intros offset Hoffset. apply Hserved. lia.
Qed.

(** X12. When the lister fails, [SyncRateLimiters] returns its error,
    wrapped, and what the pages before have set stays set. With a positive
    limit and a lister that serves the first [pages] pages of a table, all
    of them full, and fails on the next call: unless a service of these
    pages has ended the sync before, the sync returns the error of the
    lister, after the inner loop has gone over the services of these
    pages. *)
Theorem SyncRateLimiters_lister_error
    (r : RateLimitSyncer error ExternalService) (ids : list Z) all
    (err : error) (pages fuel : nat) registry :
  (0 < limit r)%Z →
  (Z.of_nat (length all) < 2 ^ 63)%Z →
  (∀ offset, (0 ≤ offset < Z.of_nat (pages * Z.to_nat (limit r)))%Z →
     serviceLister r ids (limit r) offset
     = Ok (take (Z.to_nat (limit r)) (drop (Z.to_nat offset) all))) →
  serviceLister r ids (limit r) (Z.of_nat (pages * Z.to_nat (limit r))) = Err err →
  pages * Z.to_nat (limit r) ≤ length all →
  pages < fuel →
  SyncRateLimiters fuel r ids registry =
  Some match syncServices (take (pages * Z.to_nat (limit r)) all) registry with
       | (Some stopped, registry') => (Some stopped, registry')
       | (None, registry') =>
         (Some (errors_Wrap err "listing external services"), registry')
       end.
Proof.
  intros Hlimit Hsize Hserved Hfail Hin Hfuel. unfold SyncRateLimiters.
  apply (syncLoop_lister_error r ids all err pages Hlimit Hsize fuel 0 registry);
    [exact Hserved | exact Hfail | lia..].
Qed.

End SyncFacts.

(** * More on the rule composer, the unquote rule and the plan expander *)

Section ComposerFold.

Context {Basic : Type}.

(** X13. [applyRules] threads an optional query through the chain from left
    to right: it is the fold of the rules over the chain, each applied to
    what the one before returned and none applied once one has returned
    nil. *)
Theorem applyRules_fold (b : Basic) (rules : list (rule Basic)) :
  applyRules b rules
  = fold_left (λ (reached : option Basic) (r : rule Basic), reached ≫= r)
      rules (Some b).
Proof.
  revert b. induction rules as [|r rules IH]; intros b; simpl; [done|].
  destruct (r b) as [next|]; [apply IH|].
  clear. by induction rules.
Qed.

End ComposerFold.

Section UnquoteMore.

Context {Basic error step : Type} `{!QueryPackage Basic error step}.

Lemma countQuoted_pos (tree : list Node) :
  existsb isQuoted (treePatterns tree) = true ↔ 0 < countQuoted tree.
Proof.
  unfold countQuoted. induction (treePatterns tree) as [|p ps IH]; simpl; [lia|].
  destruct (isQuoted p); simpl; [split; [lia|done] | exact IH].
Qed.

(** X14. [unquotePatterns] returns a query exactly when the tree it
    re-parses has at least one pattern labelled "quoted" and the re-parse,
    the re-sequencing of the rewritten tree and the flattening all succeed;
    the query is then the flattened one. *)
Theorem unquotePatterns_applies (b nb : Basic) :
  unquotePatterns b = Some nb ↔
  ∃ tree newNodes,
    Parse (StringHuman (ToParseTree b)) SearchTypeRegex = Ok tree ∧
    0 < countQuoted tree ∧
    Sequence [For SearchTypeLiteralDefault]
      (MapPattern tree unquoteCallback false).1 = Ok newNodes ∧
    ToBasicQuery newNodes = Ok nb.
Proof.
  rewrite unquotePatterns_unfold. split.
  - destruct (Parse _ _) as [tree|e]; [|done].
    destruct (existsb isQuoted (treePatterns tree)) eqn:Hq; [|done].
    destruct (Sequence _ _) as [newNodes|e] eqn:Hseq; [|done].
    destruct (ToBasicQuery newNodes) as [newBasic|e] eqn:Hflat; [|done].
    intros [= <-]. exists tree, newNodes.
    by rewrite <- countQuoted_pos.
  - intros (tree & newNodes & -> & Hq%countQuoted_pos & -> & ->).
    by rewrite Hq.
Qed.

End UnquoteMore.

Section UnquoteTwice.

Lemma unquoted_not_quoted (p p' : string * bool * Annotation) :
  unquoted p p' → isQuoted p' = false.
Proof.
  unfold unquoted. intros (_ & _ & Hlabels).
  destruct (isQuoted p) eqn:Hq; [by destruct Hlabels | by subst].
Qed.

(** X15. After the unquote pass no pattern of the tree is labelled
    "quoted", and a second pass changes nothing: it returns the tree it is
    given and leaves [changed] as it finds it. *)
Theorem unquote_pass_twice (tree : list Node) (changed changed' : bool) :
  countQuoted (MapPattern tree unquoteCallback changed).1 = 0 ∧
  MapPattern (MapPattern tree unquoteCallback changed).1 unquoteCallback changed'
  = ((MapPattern tree unquoteCallback changed).1, changed').
Proof.
  destruct (MapPattern_unquote tree changed) as (tree' & -> & Hps & _). simpl.
  assert (Hnone : existsb isQuoted (treePatterns tree') = false).
  { induction Hps as [|p p' ps ps' Hp _ IH]; simpl; [done|].
    by rewrite (unquoted_not_quoted p p' Hp). }
  split.
  - unfold countQuoted. clear Hps.
    induction (treePatterns tree') as [|p ps IH]; simpl in *; [done|].
    apply orb_false_iff in Hnone as [-> Hnone]. by apply IH.
  - destruct (MapPattern_unquote tree' changed') as (tree'' & -> & _ & _ & Hsame).
    by rewrite Hnone, orb_false_r, (Hsame Hnone).
Qed.

End UnquoteTwice.

Section ExpanderMore.

Context {Basic SearchInputs Job error step : Type}.
Context `{!QueryPackage Basic error step}.
Context `{!JobPackage SearchInputs Basic Job error}.

Lemma generatedQueries_omap (plan : list Basic) :
  generatedQueries plan = omap unquotePatterns plan.
Proof.
  unfold generatedQueries.
  induction plan as [|b plan IH]; csimpl; [done|]. rewrite IH.
  unfold applyRulesList, rulesList. simpl.
  by destruct (unquotePatterns b).
Qed.

Lemma forRange_appendJob_panics message inputs (bs : list Basic) (b : Basic)
    (e : error) (children : list Job) :
  b ∈ bs → NewBasicJob inputs b = Err e →
  forRange bs (appendJob message inputs) children = Panicked message.
Proof.
  intros Hin Hfail.
  destruct (forRange_appendJob_cases message inputs bs children)
    as [[js Hjs]|[_ Hpanic]]; [|done].
  exfalso. induction Hjs as [|b' j bs js Hb' _ IH].
  - by apply elem_of_nil in Hin.
  - apply elem_of_cons in Hin as [->|Hin]; [|by apply IH].
    unfold unitOf in Hb'. congruence.
Qed.

Lemma Forall2_unitOf_returned message inputs (bs : list Basic)
    (children result : list Job) :
  forRange bs (appendJob message inputs) children = Returned result →
  ∃ js, Forall2 (unitOf inputs) bs js ∧ result = children ++ js.
Proof.
  intros Hret.
  destruct (forRange_appendJob_cases message inputs bs children)
    as [[js Hjs]|[_ Hpanic]]; [|congruence].
  exists js. split; [done|].
  rewrite (forRange_appendJob_ok _ _ _ _ _ Hjs) in Hret. congruence.
Qed.

(** X16. With the configured rule list, the generated queries of a plan are
    the results of [unquotePatterns] on those queries of the plan to which
    it applies, in plan order: at most one for each query of the plan. *)
Theorem generatedQueries_unquoted (plan : list Basic) :
  generatedQueries plan = omap unquotePatterns plan ∧
  length (generatedQueries plan) ≤ length plan.
Proof.
  rewrite generatedQueries_omap. split; [done|]. apply omap_length_le.
Qed.

(** X17. Whenever [NewFeelingLuckySearchJob] returns, [NewBasicJob] has made
    a job of every query of the plan and of every generated query, and the
    result is the sequential job, with its flag true, of the jobs of the
    plan followed by the jobs of the generated queries; it has at least as
    many children as the plan has queries and at most twice as many. *)
Theorem NewFeelingLuckySearchJob_returned inputs (plan : list Basic) (job : Job) :
  NewFeelingLuckySearchJob inputs plan = Returned job →
  ∃ originals generated,
    Forall2 (unitOf inputs) plan originals ∧
    Forall2 (unitOf inputs) (generatedQueries plan) generated ∧
    job = NewSequentialJob true (originals ++ generated) ∧
    length plan ≤ length (originals ++ generated) ≤ 2 * length plan.
Proof.
  rewrite NewFeelingLuckySearchJob_unfold. unfold mbind, outcome_bind.
  destruct (forRange plan _ []) as [children|message] eqn:Hfirst; [|done].
  destruct (forRange (generatedQueries plan) _ children)
    as [children'|message] eqn:Hsecond; [|done].
  intros [= <-].
  apply Forall2_unitOf_returned in Hfirst as (originals & Horig & ->).
  apply Forall2_unitOf_returned in Hsecond as (generated & Hgen & ->).
  exists originals, generated. repeat split; [done..| |].
  - rewrite length_app, <- (Forall2_length _ _ _ Horig). lia.
  - rewrite length_app, <- (Forall2_length _ _ _ Horig),
      <- (Forall2_length _ _ _ Hgen), generatedQueries_omap.
    pose proof (omap_length_le unquotePatterns plan). lia.
Qed.

(** X18. When [NewBasicJob] fails on a query of the plan,
    [NewFeelingLuckySearchJob] panics with the message of its first loop,
    [TODO], whatever the rules generate. *)
Theorem NewFeelingLuckySearchJob_panics_on_plan inputs (plan : list Basic)
    (b : Basic) (e : error) :
  b ∈ plan →
  NewBasicJob inputs b = Err e →
  NewFeelingLuckySearchJob inputs plan = Panicked "TODO".
Proof.
  intros Hin Hfail. rewrite NewFeelingLuckySearchJob_unfold.
  by rewrite (forRange_appendJob_panics _ _ _ b e _ Hin Hfail).
Qed.

(** X19. When [NewBasicJob] makes a job of every query of the plan and fails
    on a generated query, [NewFeelingLuckySearchJob] panics with the message
    of its second loop. *)
Theorem NewFeelingLuckySearchJob_panics_on_generated inputs (plan : list Basic)
    (originals : list Job) (b : Basic) (e : error) :
  Forall2 (unitOf inputs) plan originals →
  b ∈ generatedQueries plan →
  NewBasicJob inputs b = Err e →
  NewFeelingLuckySearchJob inputs plan
  = Panicked "generated an invalid basic query D:".
Proof.
  intros Horig Hin Hfail. rewrite NewFeelingLuckySearchJob_unfold.
  rewrite (forRange_appendJob_ok _ _ _ _ _ Horig). unfold mbind at 1; simpl.
  by rewrite (forRange_appendJob_panics _ _ _ b e _ Hin Hfail).
Qed.

(** X20. When [unquotePatterns] applies to no query of the plan and
    [NewBasicJob] makes a job of each of them, [NewFeelingLuckySearchJob]
    returns the sequential job of exactly these jobs, in plan order. *)
Theorem NewFeelingLuckySearchJob_nothing_generated inputs (plan : list Basic)
    (originals : list Job) :
  Forall (λ b, unquotePatterns b = None) plan →
  Forall2 (unitOf inputs) plan originals →
  NewFeelingLuckySearchJob inputs plan
  = Returned (NewSequentialJob true originals).
Proof.
  intros Hnone Horig. rewrite NewFeelingLuckySearchJob_unfold.
  rewrite (forRange_appendJob_ok _ _ _ _ _ Horig). unfold mbind at 1; simpl.
  assert (Hgen : generatedQueries plan = []).
  { rewrite generatedQueries_omap. clear Horig.
    induction Hnone as [|b plan Hb _ IH]; csimpl; [done|]. by rewrite Hb. }
  by rewrite Hgen.
Qed.

End ExpanderMore.

(** * The ids of extension insights *)

Lemma strings_Split_app (s rest : string) (sep : Ascii.ascii) :
  strings_Split (s ++ String sep rest) sep
  = strings_Split s sep ++ strings_Split rest sep.
Proof.
  induction s as [|c s IH]; simpl.
  - by rewrite Ascii.eqb_refl.
  - destruct (Ascii.eqb c sep); rewrite IH; [done|].
    pose proof (strings_Split_nonempty s sep).
    by destruct (strings_Split s sep).
Qed.

Lemma strings_Join_Split (s : string) (sep : Ascii.ascii) :
  strings_Join (strings_Split s sep) sep = s.
Proof.
  induction s as [|c s IH]; simpl; [done|].
  pose proof (strings_Split_nonempty s sep) as Hne.
  destruct (Ascii.eqb_spec c sep) as [->|_].
  - destruct (strings_Split s sep) as [|piece pieces]; [done|].
    simpl in *. by rewrite IH.
  - destruct (strings_Split s sep) as [|piece pieces]; [done|].
    destruct pieces as [|piece' pieces]; simpl in *; by rewrite <- IH.
Qed.

(** X21. The id that [getCombinedViews] gives an extension insight is the
    id of the insight without its last segment and the dot before it; an id
    without a dot becomes the empty id. *)
Theorem extensionInsightId_drops_last_segment (front name : string) :
  freeOf dot name →
  extensionInsightId (front ++ String dot name) = front ∧
  extensionInsightId name = EmptyString.
Proof.
  intros Hfree. unfold extensionInsightId, js_join, js_slice_0_minus_1, js_split.
  rewrite strings_Split_app, !(strings_Split_free name dot Hfree).
  split; [|done].
  by rewrite removelast_last, strings_Join_Split.
Qed.

(** * The sample packages of [repos] and the theorems above at concrete
    inputs *)

Lemma sampleSync_pages :
  sampleSync 7 (sampleSyncer sampleTable 2)
  = Some (Some "getting rate limit configuration: unreadable"%string,
          [("urn:a", 1); ("urn:ccc", 3); ("urn:dd", 2)]%string%Z) ∧
  sampleSync 7 (sampleSyncer (take 4 sampleTable) 3)
  = Some (None, [("urn:a", 1); ("urn:ccc", 3); ("urn:dd", 2)]%string%Z).
Proof. split; vm_compute; reflexivity. Qed.

Lemma GrantedScopes_not_supported_witness :
  sampleGrantedScopes ∅
    {| sampleKind := "BITBUCKET"; sampleToken := "t"; sampleGranted := ["repo"%string];
       sampleConfig := "c" |}
  = (Ok [], ∅).
Proof.
  apply (@GrantedScopes_not_supported _ _ _ _ _ _ _ sampleRepos _ sampleCache).
  right. split; discriminate.
Defined.

Lemma GrantedScopes_cache_hit_witness :
  sampleGrantedScopes {[ "ae3d8f44"%string := "repo,user"%string ]}
    (sampleGithub "byvhxp" ["admin"%string])
  = (Ok ["repo"; "user"]%string, {[ "ae3d8f44"%string := "repo,user"%string ]}).
Proof.
  apply (@GrantedScopes_cache_hit _ _ _ _ _ _ _ sampleRepos _ sampleCache
           {[ "ae3d8f44"%string := "repo,user"%string ]} ()
           (sampleGithub "byvhxp" ["admin"%string])
           "byvhxp"%string "ae3d8f44"%string "repo,user"%string).
  - eapply tokenOfGithub;
      [split; [reflexivity | left; reflexivity] | reflexivity | reflexivity
      | discriminate].
  - vm_compute. reflexivity.
  - vm_compute. reflexivity.
  - discriminate.
Defined.

Lemma GrantedScopes_second_call_cached_witness :
  ∃ cache',
    sampleGrantedScopes ∅ (sampleGithub "byvhxp" ["repo"; "read:org"]%string)
    = (Ok ["repo"; "read:org"]%string, cache') ∧
    sampleGrantedScopes cache' (sampleGithub "byvhxp" ["repo"; "read:org"]%string)
    = (Ok ["repo"; "read:org"]%string, cache').
Proof.
  apply (@GrantedScopes_second_call_cached _ _ _ _ _ _ _ sampleRepos _ sampleCache
           ∅ () (sampleGithub "byvhxp" ["repo"; "read:org"]%string)
           "byvhxp"%string "ae3d8f44"%string).
  - intros c k v. apply lookup_insert_eq.
  - eapply tokenOfGithub;
      [split; [reflexivity | left; reflexivity] | reflexivity | reflexivity
      | discriminate].
  - vm_compute. reflexivity.
  - reflexivity.
  - eapply fetchedGithub; reflexivity.
  - repeat apply List.Forall_cons; [| |apply List.Forall_nil];
      vm_compute; intuition discriminate.
  - discriminate.
Defined.

Lemma GrantedScopes_empty_grant_refetched_witness :
  sampleGrantedScopes ∅ (sampleGithub "byvhxp" [])
  = (Ok [], <["ae3d8f44"%string := EmptyString]> ∅) ∧
  sampleGrantedScopes (<["ae3d8f44"%string := EmptyString]> ∅)
    (sampleGithub "byvhxp" [])
  = (Ok [], <["ae3d8f44"%string := EmptyString]>
              (<["ae3d8f44"%string := EmptyString]> ∅)).
Proof.
  apply (@GrantedScopes_empty_grant_refetched _ _ _ _ _ _ _ sampleRepos _ sampleCache
           ∅ () (sampleGithub "byvhxp" []) "byvhxp"%string "ae3d8f44"%string []).
  - intros c k v. apply lookup_insert_eq.
  - eapply tokenOfGithub;
      [split; [reflexivity | left; reflexivity] | reflexivity | reflexivity
      | discriminate].
  - vm_compute. reflexivity.
  - reflexivity.
  - eapply fetchedGithub; reflexivity.
  - reflexivity.
Defined.

Lemma GrantedScopes_shared_between_colliding_tokens_witness :
  ∃ cache',
    sampleGrantedScopes ∅ (sampleGithub "byvhxp" ["repo"%string])
    = (Ok ["repo"%string], cache') ∧
    sampleGrantedScopes cache' (sampleGithub "7uu2ac" ["admin:org"%string])
    = (Ok ["repo"%string], cache').
Proof.
  apply (@GrantedScopes_shared_between_colliding_tokens _ _ _ _ _ _ _
           sampleRepos _ sampleCache ∅ ()
           (sampleGithub "byvhxp" ["repo"%string])
           (sampleGithub "7uu2ac" ["admin:org"%string])
           "byvhxp"%string "7uu2ac"%string "ae3d8f44"%string).
  - intros c k v. apply lookup_insert_eq.
  - eapply tokenOfGithub;
      [split; [reflexivity | left; reflexivity] | reflexivity | reflexivity
      | discriminate].
  - eapply tokenOfGithub;
      [split; [reflexivity | left; reflexivity] | reflexivity | reflexivity
      | discriminate].
  - vm_compute. reflexivity.
  - vm_compute. reflexivity.
  - reflexivity.
  - eapply fetchedGithub; reflexivity.
  - apply List.Forall_cons; [|apply List.Forall_nil].
    vm_compute; intuition discriminate.
  - discriminate.
Defined.

Lemma SyncRateLimiters_one_pass_witness :
  sampleSync 7 (sampleSyncer sampleTable 2)
  = Some (@syncServices _ _ _ _ _ _ _ sampleRepos sampleTable []) ∧
  sampleSync 7 (NewRateLimitSyncer (sampleLister sampleTable))
  = Some (@syncServices _ _ _ _ _ _ _ sampleRepos sampleTable []).
Proof.
  split.
  - apply (@SyncRateLimiters_one_pass _ _ _ _ _ _ _ sampleRepos
             (sampleSyncer sampleTable 2) [] sampleTable 7 []).
    + intros offset _. reflexivity.
    + reflexivity.
    + reflexivity.
    + vm_compute. lia.
  - apply (@SyncRateLimiters_one_pass _ _ _ _ _ _ _ sampleRepos
             (NewRateLimitSyncer (sampleLister sampleTable)) [] sampleTable 7 []).
    + intros offset _. reflexivity.
    + reflexivity.
    + reflexivity.
    + vm_compute. lia.
Defined.

Lemma SyncRateLimiters_sets_every_limit_witness :
  sampleSync 5 (sampleSyncer (take 4 sampleTable) 3)
  = Some (None, [] ++ omap (@limitOf _ _ _ _ _ _ _ sampleRepos) (take 4 sampleTable)).
Proof.
  apply (@SyncRateLimiters_sets_every_limit _ _ _ _ _ _ _ sampleRepos
           (sampleSyncer (take 4 sampleTable) 3) [] (take 4 sampleTable) 5 []).
  - intros offset _. reflexivity.
  - reflexivity.
  - reflexivity.
  - vm_compute. lia.
  - repeat apply List.Forall_cons; [| | | |apply List.Forall_nil];
      intros err; vm_compute; intros [= <-]; reflexivity.
Defined.

Lemma SyncRateLimiters_stops_at_first_error_witness :
  sampleSync 7 (sampleSyncer sampleTable 2)
  = Some (Some "getting rate limit configuration: unreadable"%string,
          [] ++ omap (@limitOf _ _ _ _ _ _ _ sampleRepos) (take 4 sampleTable)).
Proof.
  apply (@SyncRateLimiters_stops_at_first_error _ _ _ _ _ _ _ sampleRepos
           (sampleSyncer sampleTable 2) [] (take 4 sampleTable) (drop 5 sampleTable)
           {| sampleKind := "GITHUB"; sampleToken := "t"; sampleGranted := [];
              sampleConfig := "broken" |} "unreadable"%string 7 []).
  - intros offset _. reflexivity.
  - reflexivity.
  - reflexivity.
  - vm_compute. lia.
  - repeat apply List.Forall_cons; [| | | |apply List.Forall_nil];
      intros err; vm_compute; intros [= <-]; reflexivity.
  - reflexivity.
  - reflexivity.
Defined.

Lemma SyncRateLimiters_lister_error_witness :
  sampleSync 2 {| serviceLister := sampleBrokenLister sampleTable; limit := 2 |}
  = Some (Some "listing external services: database down"%string,
          [("urn:a", 1%Z)]%string).
Proof.
  apply (@SyncRateLimiters_lister_error _ _ _ _ _ _ _ sampleRepos
           {| serviceLister := sampleBrokenLister sampleTable; limit := 2 |}
           [] sampleTable "database down"%string 1 2 []).
  - reflexivity.
  - reflexivity.
  - intros offset Hoffset. cbn in Hoffset.
    simpl. unfold sampleBrokenLister.
    destruct (Z.ltb_spec offset 2); [reflexivity | lia].
  - reflexivity.
  - vm_compute. lia.
  - lia.
Defined.

Lemma NewFeelingLuckySearchJob_returned_witness :
  ∃ originals generated,
    Forall2 (@unitOf _ _ _ _ sampleJobs 7) [inQuotes "foo"; "bar"%string] originals ∧
    Forall2 (@unitOf _ _ _ _ sampleJobs 7)
      (@generatedQueries _ _ _ sampleQuery [inQuotes "foo"; "bar"%string]) generated ∧
    SequentialJob true
      [BasicJob 7 (inQuotes "foo"); BasicJob 7 "bar"; BasicJob 7 "foo"]
    = SequentialJob true (originals ++ generated) ∧
    length [inQuotes "foo"; "bar"%string] ≤ length (originals ++ generated)
      ≤ 2 * length [inQuotes "foo"; "bar"%string].
Proof.
  apply (@NewFeelingLuckySearchJob_returned _ _ _ _ _ sampleQuery sampleJobs 7
           [inQuotes "foo"; "bar"%string]
           (SequentialJob true
              [BasicJob 7 (inQuotes "foo"); BasicJob 7 "bar"; BasicJob 7 "foo"])).
  vm_compute. reflexivity.
Defined.

Lemma NewFeelingLuckySearchJob_panics_on_plan_witness :
  sampleExpand 7 [inQuotes "bad"; "bad"%string] = Panicked "TODO".
Proof.
  apply (@NewFeelingLuckySearchJob_panics_on_plan _ _ _ _ _ sampleQuery sampleJobs 7
           [inQuotes "bad"; "bad"%string] "bad"%string "cannot build"%string).
  - apply elem_of_cons. right. apply elem_of_cons. by left.
  - vm_compute. reflexivity.
Defined.

Lemma NewFeelingLuckySearchJob_panics_on_generated_witness :
  sampleExpand 7 ["ok"%string; inQuotes "bad"]
  = Panicked "generated an invalid basic query D:".
Proof.
  apply (@NewFeelingLuckySearchJob_panics_on_generated _ _ _ _ _
           sampleQuery sampleJobs 7 ["ok"%string; inQuotes "bad"]
           [BasicJob 7 "ok"; BasicJob 7 (inQuotes "bad")]
           "bad"%string "cannot build"%string).
  - vm_compute. repeat constructor.
  - vm_compute. repeat constructor.
  - vm_compute. reflexivity.
Defined.

Lemma NewFeelingLuckySearchJob_nothing_generated_witness :
  sampleExpand 7 ["foo"; "bar"]%string
  = Returned (SequentialJob true [BasicJob 7 "foo"; BasicJob 7 "bar"]).
Proof.
  apply (@NewFeelingLuckySearchJob_nothing_generated _ _ _ _ _
           sampleQuery sampleJobs 7 ["foo"; "bar"]%string
           [BasicJob 7 "foo"; BasicJob 7 "bar"]).
  - repeat apply List.Forall_cons; [| |apply List.Forall_nil];
      vm_compute; reflexivity.
  - vm_compute. repeat constructor.
Defined.

Lemma extensionInsightId_drops_last_segment_witness :
  extensionInsightId "searchInsights.insight.teamSize.insightsPage"
  = "searchInsights.insight.teamSize"%string ∧
  extensionInsightId "insightsPage" = EmptyString.
Proof.
  apply (extensionInsightId_drops_last_segment
           "searchInsights.insight.teamSize" "insightsPage").
  vm_compute. intuition discriminate.
Defined.
